(** * Node_Test-server: the directive language and its executor

    A shallow embedding of [index.js]: the string primitives the parser
    relies on, [parseRequest], the action handlers, [execActions] and the
    connection and data listeners of the server. *)

From Stdlib Require Import String Ascii.
From stdpp Require Import base numbers list.

Local Open Scope N_scope.

(** ** JavaScript strings

    A JavaScript string is a sequence of UTF-16 code units; a code unit
    is kept as its number. *)

Definition jstring := list N.

(** The code units of a literal of the source (all of them are ASCII). *)
Definition lit (s : string) : jstring :=
  List.map N_of_ascii (list_ascii_of_string s).

Module JS.

(** [s.startsWith(pat)] at the head of [s]. *)
Fixpoint startsWith (pat s : jstring) : bool :=
  match pat, s with
  | [], _ => true
  | _ :: _, [] => false
  | p :: pat', c :: s' => (p =? c) && startsWith pat' s'
  end.

(** [s.includes(pat)]. *)
Fixpoint includes (pat s : jstring) : bool :=
  match s with
  | [] => startsWith pat []
  | _ :: s' => startsWith pat s || includes pat s'
  end.

(** [s.indexOf(pat)], counting from position [k]; [-1] when absent. *)
Fixpoint indexOf_from (pat s : jstring) (k : Z) : Z :=
  match s with
  | [] => if startsWith pat [] then k else (-1)%Z
  | _ :: s' => if startsWith pat s then k else indexOf_from pat s' (k + 1)%Z
  end.

Definition indexOf (pat s : jstring) : Z := indexOf_from pat s 0%Z.

(** [s.slice(start, end)]: negative positions count from the end, both
    are clamped to the string, and an inverted range is empty. *)
Definition slice (s : jstring) (start end_ : Z) : jstring :=
  let len := Z.of_nat (length s) in
  let from := if (start <? 0)%Z then Z.max (len + start) 0 else Z.min start len in
  let to := if (end_ <? 0)%Z then Z.max (len + end_) 0 else Z.min end_ len in
  take (Z.to_nat (Z.max (to - from) 0)) (drop (Z.to_nat from) s).

(** [s.split(sep)] for a separator of one code unit. *)
Fixpoint split (sep : N) (s : jstring) : list jstring :=
  match s with
  | [] => [[]]
  | c :: s' =>
      if c =? sep then [] :: split sep s'
      else match split sep s' with
           | piece :: pieces => (c :: piece) :: pieces
           | [] => [[c]]
           end
  end.

(** WhiteSpace and LineTerminator code units, as [trim] strips them. *)
Definition isWhiteSpace (c : N) : bool :=
  ((9 <=? c) && (c <=? 13)) || (c =? 32) || (c =? 160) || (c =? 5760)
  || ((8192 <=? c) && (c <=? 8202)) || (c =? 8232) || (c =? 8233)
  || (c =? 8239) || (c =? 8287) || (c =? 12288) || (c =? 65279).

Fixpoint trimStart (s : jstring) : jstring :=
  match s with
  | c :: s' => if isWhiteSpace c then trimStart s' else s
  | [] => []
  end.

Definition trim (s : jstring) : jstring :=
  rev (trimStart (rev (trimStart s))).

(** Truthiness of a value that is a string or [undefined]. *)
Definition truthy (v : option jstring) : bool :=
  match v with
  | Some (_ :: _) => true
  | _ => false
  end.

(** Value of a hexadecimal digit. *)
Definition hexval (c : N) : option N :=
  if (48 <=? c) && (c <=? 57) then Some (c - 48)
  else if (65 <=? c) && (c <=? 70) then Some (c - 55)
  else if (97 <=? c) && (c <=? 102) then Some (c - 87)
  else None.

Definition hex2 (a b : N) : option N :=
  match hexval a, hexval b with
  | Some x, Some y => Some (16 * x + y)
  | _, _ => None
  end.

Definition hex4 (a b c d : N) : option N :=
  match hex2 a b, hex2 c d with
  | Some x, Some y => Some (256 * x + y)
  | _, _ => None
  end.

(** The escape that follows a [%]: the code unit it denotes and the
    number of code units it takes, [%uXXXX] first and [%XX] otherwise. *)
Definition decode_escape (t : jstring) : option (N * nat) :=
  match t with
  | u :: h1 :: h2 :: h3 :: h4 :: _ =>
      if u =? 117 then
        match hex4 h1 h2 h3 h4 with
        | Some n => Some (n, 5%nat)
        | None => None
        end
      else
        match hex2 u h1 with
        | Some n => Some (n, 2%nat)
        | None => None
        end
  | h1 :: h2 :: _ =>
      match hex2 h1 h2 with
      | Some n => Some (n, 2%nat)
      | None => None
      end
  | _ => None
  end.

(** The global function [unescape]; [skip] counts the code units of an
    escape that was decoded and is still to be passed over. *)
Fixpoint unescape_from (skip : nat) (s : jstring) : jstring :=
  match s with
  | [] => []
  | c :: t =>
      match skip with
      | S k => unescape_from k t
      | O =>
          if c =? 37 then
            match decode_escape t with
            | Some (n, k) => n :: unescape_from k t
            | None => c :: unescape_from 0 t
            end
          else c :: unescape_from 0 t
      end
  end.

Definition unescape (s : jstring) : jstring := unescape_from 0 s.

Definition isHighSurrogate (c : N) : bool := (55296 <=? c) && (c <=? 56319).
Definition isLowSurrogate (c : N) : bool := (56320 <=? c) && (c <=? 57343).

(** The bytes of a string in UTF-8, the encoding a stream applies to a
    string chunk: a surrogate pair is one code point of four bytes and a
    lone surrogate is replaced by U+FFFD. *)
Fixpoint utf8 (s : jstring) : list N :=
  match s with
  | [] => []
  | c :: t =>
      if c <? 128 then c :: utf8 t
      else if c <? 2048 then (192 + c / 64) :: (128 + c mod 64) :: utf8 t
      else if isHighSurrogate c then
        match t with
        | d :: t' =>
            if isLowSurrogate d then
              let cp := 65536 + (c - 55296) * 1024 + (d - 56320) in
              (240 + cp / 262144) :: (128 + (cp / 4096) mod 64)
              :: (128 + (cp / 64) mod 64) :: (128 + cp mod 64) :: utf8 t'
            else 239 :: 191 :: 189 :: utf8 t
        | [] => [239; 191; 189]
        end
      else if isLowSurrogate c then 239 :: 191 :: 189 :: utf8 t
      else (224 + c / 4096) :: (128 + (c / 64) mod 64) :: (128 + c mod 64) :: utf8 t
  end.

End JS.

(** ** Constants *)

(** Signature of action set *)
Definition ACT_SIGN_OPEN : jstring := lit "ACT[".
Definition ACT_SIGN_CLOSE : jstring := lit "]".
Definition ACT_SEP : N := 44.
(** The separator of an action and its parameter, ['=']. *)
Definition PARAM_SEP : N := 61.
(** Action codes *)
Definition ACT_CLOSE : jstring := lit "CLOSE".
Definition ACT_SEND : jstring := lit "SEND".
Definition ACT_DATA : jstring := lit "DATA".
Definition ACT_WAIT : jstring := lit "WAIT".
Definition ACT_SHUT : jstring := lit "SHUT".

(** ** Parsing *)

(** An entry [{cmd, param}]; [param] is [None] for [undefined]. *)
Record Action := mkAction { cmd : jstring; param : option jstring }.

(** The body of the loop of [parseRequest]:
    [{cmd: item.split('=')[0], param: item.split('=')[1]}]. *)
Definition action_of (item : jstring) : Action :=
  {| cmd := hd [] (JS.split PARAM_SEP item);
     param := JS.split PARAM_SEP item !! 1%nat |}.

(** [parseRequest(request)]; [None] is [undefined]. *)
Definition parseRequest (request : jstring) : option (list Action) :=
  if negb (JS.truthy (Some request))
     || negb (JS.includes ACT_SIGN_OPEN request)
     || negb (JS.includes ACT_SIGN_CLOSE request)
  then None
  else
    let actStr :=
      JS.slice request
        (JS.indexOf ACT_SIGN_OPEN request + Z.of_nat (length ACT_SIGN_OPEN))
        (JS.indexOf ACT_SIGN_CLOSE request) in
    match actStr with
    | [] => Some []
    | _ => Some (List.map action_of (JS.split ACT_SEP actStr))
    end.

(** [pat] occurs in [s]. *)
Definition contains (pat s : jstring) : Prop :=
  exists pre post, s = pre ++ pat ++ post.

(** ** The executor

    The program is driven by events of the Node runtime and acts on it by
    calls; the calls and the lines logged are kept in order in a trace. *)

(** Errors the runtime raises or reports. *)
Inductive JsError :=
  | ERR_INVALID_ARG_TYPE              (* a chunk that is neither string nor buffer *)
  | ERR_NOT_A_FUNCTION                (* a value that is not callable where a function is due *)
  | ERR_RANDOM_SIZE                   (* a size [crypto.randomBytes] refuses *)
  | ERR_IO (code : jstring).          (* an error reported by a socket or the server *)

(** A chunk handed to [socket.write]. *)
Inductive Chunk :=
  | CString (s : jstring)
  | CBuffer (n : N).                  (* [n] random bytes *)

(** An argument of [log]. *)
Inductive LogArg :=
  | AStr (s : jstring)
  | AErr (e : JsError).

Inductive Effect :=
  | Log (args : list LogArg)          (* [log(...args)], the time stamp left out *)
  | SockWrite (id : nat) (c : Chunk)  (* [socket.write(c, cb)] *)
  | SockEnd (id : nat)                (* [socket.end()] or [socket.end(cb)] *)
  | SetTimeout (time : option jstring) (* [setTimeout(resolve, Number(time))] *)
  | SrvClose.                         (* [socket.server.close(resolve)] *)

(** What a suspended [await] waits for: a socket method wrapped by
    [promisifyCbAndError] (its callback resolves, an ['error'] of the socket
    rejects), a timer, or the callback of [server.close]. *)
Inductive Pending := PSocket | PTimer | PServer.

(** The outcome of calling an entry of [METHOD_MAP] and reaching the
    [await] on what it returns. *)
Inductive Result :=
  | Returned                                   (* not a promise: the loop goes on *)
  | Threw (e : JsError)                        (* a rejected promise *)
  | Suspended (p : Pending) (es : list Effect). (* a pending promise *)

Definition Handler := nat -> option jstring -> Result.

(** A value found under a key of [METHOD_MAP]. *)
Inductive MapValue :=
  | VFunction (h : Handler)
  | VObject.

(** What a method of the socket does when it is called. *)
Inductive CallOutcome :=
  | Started (e : Effect)
  | Raised (err : JsError).

Definition socket_end (id : nat) : CallOutcome := Started (SockEnd id).

(** [socket.write(chunk, cb)]: a stream takes a string or a buffer and
    raises a [TypeError] on anything else, [undefined] included. *)
Definition socket_write (id : nat) (chunk : option Chunk) : CallOutcome :=
  match chunk with
  | Some c => Started (SockWrite id c)
  | None => Raised ERR_INVALID_ARG_TYPE
  end.

(** [promisifyCbAndError(emitter, method, ...args)]: the method is called
    inside the executor of the promise, so an exception it raises rejects
    the promise; otherwise the promise stays pending until the callback or
    an ['error'] of the emitter. *)
Definition promisifyCbAndError (call : CallOutcome) : Result :=
  match call with
  | Started e => Suspended PSocket [e]
  | Raised err => Threw err
  end.

Fixpoint jstring_eqb (a b : jstring) : bool :=
  match a, b with
  | [], [] => true
  | x :: a', y :: b' => (x =? y) && jstring_eqb a' b'
  | _, _ => false
  end.

Fixpoint assoc {A} (key : jstring) (table : list (jstring * A)) : option A :=
  match table with
  | [] => None
  | (k, v) :: table' => if jstring_eqb k key then Some v else assoc key table'
  end.

(** The properties every object literal inherits from [Object.prototype],
    called as [f(socket, param)] with neither argument callable:
    [__defineGetter__] and [__defineSetter__] raise a [TypeError], the
    others return a value that is not a promise; [__proto__] is an
    accessor that gives the prototype object itself. *)
Definition Object_prototype : list (jstring * MapValue) :=
  [ (lit "constructor", VFunction (fun _ _ => Returned));
    (lit "__defineGetter__", VFunction (fun _ _ => Threw ERR_NOT_A_FUNCTION));
    (lit "__defineSetter__", VFunction (fun _ _ => Threw ERR_NOT_A_FUNCTION));
    (lit "hasOwnProperty", VFunction (fun _ _ => Returned));
    (lit "__lookupGetter__", VFunction (fun _ _ => Returned));
    (lit "__lookupSetter__", VFunction (fun _ _ => Returned));
    (lit "isPrototypeOf", VFunction (fun _ _ => Returned));
    (lit "propertyIsEnumerable", VFunction (fun _ _ => Returned));
    (lit "toString", VFunction (fun _ _ => Returned));
    (lit "valueOf", VFunction (fun _ _ => Returned));
    (lit "__proto__", VObject);
    (lit "toLocaleString", VFunction (fun _ _ => Returned)) ].

(** The kinds of the action vocabulary. *)
Definition known_kinds : list jstring :=
  [ACT_CLOSE; ACT_DATA; ACT_SEND; ACT_WAIT; ACT_SHUT].

(** The size of a buffer asked for by a length written in decimal digits
    (the empty string converts to [0]); used where a run is computed. *)
Fixpoint decimal_from (acc : N) (s : jstring) : option N :=
  match s with
  | [] => Some acc
  | c :: s' =>
      if (48 <=? c) && (c <=? 57) then decimal_from (10 * acc + (c - 48)) s'
      else None
  end.

Definition decimalSize (length : option jstring) : option N :=
  match length with
  | Some s => decimal_from 0 s
  | None => None
  end.

(** Whether an argument is written in decimal digits (the empty string
    converts to [0]); used where a start of the script is computed. *)
Definition decimalNumeric (arg : jstring) : bool :=
  match decimal_from 0 arg with
  | Some _ => true
  | None => false
  end.

Section Server.

(** [Number(length)] followed by the size check of [crypto.randomBytes]:
    the number of bytes of the buffer, or [None] when the call throws.
    The conversion goes through floating point and is left to the
    runtime. *)
Variable randomSize : option jstring -> option N.

(** Close and wait for it *)
Definition act_close : Handler := fun socket _ =>
  promisifyCbAndError (socket_end socket).

(** Send string and wait for it *)
Definition act_send : Handler := fun socket data =>
  promisifyCbAndError
    (socket_write socket
       (CString <$> (if JS.truthy data then JS.unescape <$> data else data))).

(** Send random data and wait for it *)
Definition act_data : Handler := fun socket length =>
  match randomSize length with
  | Some n => promisifyCbAndError (socket_write socket (Some (CBuffer n)))
  | None => Threw ERR_RANDOM_SIZE
  end.

(** Sleep for some time *)
Definition act_wait : Handler := fun _ time =>
  Suspended PTimer [SetTimeout time].

(** Shutdown the server *)
Definition act_shut : Handler := fun _ _ =>
  Suspended PServer [SrvClose].

Definition METHOD_MAP : list (jstring * MapValue) :=
  [ (ACT_CLOSE, VFunction act_close);
    (ACT_DATA, VFunction act_data);
    (ACT_SEND, VFunction act_send);
    (ACT_WAIT, VFunction act_wait);
    (ACT_SHUT, VFunction act_shut) ].

(** [METHOD_MAP[key]]: an own property, else one of the prototype, else
    [undefined]. *)
Definition METHOD_MAP_get (key : jstring) : option MapValue :=
  match assoc key METHOD_MAP with
  | Some v => Some v
  | None => assoc key Object_prototype
  end.

(** [METHOD_MAP[item.cmd](socket, item.param)] up to the [await]. *)
Definition invoke (v : MapValue) (socket : nat) (item : Action) : Result :=
  match v with
  | VFunction h => h socket (param item)
  | VObject => Threw ERR_NOT_A_FUNCTION
  end.

Definition executing (item : Action) : Effect :=
  Log [AStr (lit "Executing action " ++ cmd item
             ++ (if JS.truthy (param item)
                 then lit ": " ++ JS.trim (default [] (param item))
                 else []))].

(** The promise an [async] function has returned. Nothing in the program
    handles a rejection of the promise of [execActions]; what the runtime
    does with it is not part of the model. *)
Inductive PromiseState :=
  | Awaiting (p : Pending) (rest : list Action) (* suspended, [rest] not yet visited *)
  | Fulfilled
  | Rejected (e : JsError).

(** The [for] loop of [execActions] from [items] on, up to the first
    suspension: the effects in order and the state it stops in. *)
Fixpoint exec_loop (socket : nat) (items : list Action)
  : list Effect * PromiseState :=
  match items with
  | [] => ([], Fulfilled)
  | item :: rest =>
      match METHOD_MAP_get (cmd item) with
      | None =>
          ([Log [AStr (lit "ERROR - Unknown action"); AStr (cmd item)];
            SockEnd socket], Fulfilled)
      | Some v =>
          match invoke v socket item with
          | Returned =>
              let '(es, st) := exec_loop socket rest in
              (executing item :: es, st)
          | Threw e => ([executing item], Rejected e)
          | Suspended p es => (executing item :: es, Awaiting p rest)
          end
      end
  end.

(** A connection: the field [dataGot] the ['data'] listener puts on the
    socket, and whether that listener is installed. *)
Record Socket := mkSocket { dataGot : bool; onData : bool }.

(** A call [execActions(socket, actions)] and the promise it returned. *)
Record Task := mkTask {
  t_sock : nat;
  t_actions : list Action;
  t_state : PromiseState
}.

Record World := mkWorld {
  socks : list Socket;
  tasks : list Task;
  trace : list Effect
}.

(** [execActions(socket, actions)] up to its first suspension. *)
Definition execActions (socket : nat) (actions : list Action) (w : World)
  : World :=
  let '(es, st) :=
    match actions with
    | [] => ([Log [AStr (lit "No actions defined - do nothing")]], Fulfilled)
    | _ => exec_loop socket actions
    end in
  {| socks := socks w;
     tasks := tasks w ++ [mkTask socket actions st];
     trace := trace w ++ es |}.

(** The promise task [k] awaits is resolved: the loop goes on. *)
Definition resume (k : nat) (w : World) : World :=
  match tasks w !! k with
  | Some (mkTask socket actions (Awaiting _ rest)) =>
      let '(es, st) := exec_loop socket rest in
      {| socks := socks w;
         tasks := <[k := mkTask socket actions st]> (tasks w);
         trace := trace w ++ es |}
  | _ => w
  end.

(** The listener of ['connection']; [globActions] is [None] when no
    global action set was given, and the ['data'] listener is put on the
    new socket in that case only. *)
Definition on_connection (globActions : option (list Action)) (w : World)
  : World :=
  let socket := length (socks w) in
  let w1 :=
    {| socks := socks w ++ [mkSocket false (if globActions is Some _ then false else true)];
       tasks := tasks w;
       trace := trace w ++ [Log [AStr (lit "Socket connected")]] |} in
  match globActions with
  | Some actions => execActions socket actions w1
  | None => w1
  end.

(** The listener of ['data']. *)
Definition on_data (socket : nat) (reqStr : jstring) (w : World) : World :=
  let w1 :=
    {| socks := socks w; tasks := tasks w;
       trace := trace w ++ [Log [AStr (lit "Socket IN:"); AStr reqStr]] |} in
  match socks w !! socket with
  | Some s =>
      if dataGot s then w1
      else
        let w2 :=
          {| socks := <[socket := mkSocket true (onData s)]> (socks w1);
             tasks := tasks w1; trace := trace w1 |} in
        match parseRequest reqStr with
        | None =>
            {| socks := socks w2; tasks := tasks w2;
               trace := trace w2
                        ++ [Log [AStr (lit "Request incorrect")]; SockEnd socket] |}
        | Some actions => execActions socket actions w2
        end
  | None => w
  end.

(** An ['error'] of a socket: the listener of the connection logs it and
    every promise pending on a method of this socket is rejected. *)
Definition fail_task (socket : nat) (e : JsError) (t : Task) : Task :=
  match t_state t with
  | Awaiting PSocket _ =>
      if decide (t_sock t = socket)
      then mkTask (t_sock t) (t_actions t) (Rejected e)
      else t
  | _ => t
  end.

Definition on_error (socket : nat) (e : JsError) (w : World) : World :=
  {| socks := socks w;
     tasks := fail_task socket e <$> tasks w;
     trace := trace w ++ [Log [AStr (lit "Socket Error"); AErr e]] |}.

Definition on_close (w : World) : World :=
  {| socks := socks w; tasks := tasks w;
     trace := trace w ++ [Log [AStr (lit "Socket Closed")]] |}.

(** What the runtime delivers to the program. *)
Inductive Event :=
  | Connect                                   (* ['connection'] of the server *)
  | Data (socket : nat) (reqStr : jstring)    (* ['data'] of a socket, decoded *)
  | Callback (k : nat) (err : option JsError) (* the callback task [k] waits for *)
  | SockError (socket : nat) (e : JsError)    (* ['error'] of a socket *)
  | SockClosed (socket : nat).                (* ['close'] of a socket *)

Definition step (globActions : option (list Action)) (w : World) (ev : Event)
  : World :=
  match ev with
  | Connect => on_connection globActions w
  | Data socket reqStr =>
      match socks w !! socket with
      | Some s => if onData s then on_data socket reqStr w else w
      | None => w
      end
  | Callback k _ => resume k w
  | SockError socket e =>
      if decide (socket < length (socks w))%nat then on_error socket e w else w
  | SockClosed socket =>
      if decide (socket < length (socks w))%nat then on_close w else w
  end.

Definition run (globActions : option (list Action)) (w : World)
  (evs : list Event) : World :=
  foldl (step globActions) w evs.

(** The server before any connection. *)
Definition start : World := {| socks := []; tasks := []; trace := [] |}.

(** *** Observations on a run *)

Definition is_end (socket : nat) (e : Effect) : bool :=
  match e with
  | SockEnd id => bool_decide (id = socket)
  | _ => false
  end.

(** How often [end] was called on a socket, and whether it was at all. *)
Definition ends (socket : nat) (tr : list Effect) : nat :=
  length (List.filter (is_end socket) tr).

Definition ended (socket : nat) (tr : list Effect) : bool :=
  existsb (is_end socket) tr.

(** The [CLOSE] actions of a directive. *)
Definition closes (items : list Action) : nat :=
  length (List.filter (fun a => jstring_eqb (cmd a) ACT_CLOSE) items).

(** The effects a call starts before it is awaited. *)
Definition started (r : Result) : list Effect :=
  match r with
  | Suspended _ es => es
  | _ => []
  end.

(** An action whose entry is found and whose call does not throw. *)
Definition completes (socket : nat) (item : Action) : bool :=
  match METHOD_MAP_get (cmd item) with
  | Some v =>
      match invoke v socket item with
      | Threw _ => false
      | _ => true
      end
  | None => false
  end.

(** The effects of the whole loop when nothing stops it. *)
Fixpoint loop_effects (socket : nat) (items : list Action) : list Effect :=
  match items with
  | [] => []
  | item :: rest =>
      match METHOD_MAP_get (cmd item) with
      | Some v =>
          executing item :: started (invoke v socket item)
          ++ loop_effects socket rest
      | None => []
      end
  end.

Definition is_data (ev : Event) : bool :=
  match ev with
  | Data _ _ => true
  | _ => false
  end.

Definition is_connect (ev : Event) : bool :=
  match ev with
  | Connect => true
  | _ => false
  end.

(** The arguments of the call [execActions(socket, actions)] of a task. *)
Definition call_of (t : Task) : nat * list Action := (t_sock t, t_actions t).

(** What holds of every world of a server with a global action set: no
    socket listens to ['data'], and the calls of [execActions] are one for
    each socket, in the order of the connections. *)
Definition global_inv (acts : list Action) (w : World) : Prop :=
  Forall (fun s => onData s = false /\ dataGot s = false) (socks w)
  /\ call_of <$> tasks w = (fun socket => (socket, acts)) <$> seq 0 (length (socks w)).

(** What holds of every world of a server without a global action set:
    every socket listens to ['data'], no two calls of [execActions] are on
    the same socket, and a socket with a call has its [dataGot] mark. *)
Definition inbound_inv (w : World) : Prop :=
  Forall (fun s => onData s = true) (socks w)
  /\ NoDup (t_sock <$> tasks w)
  /\ Forall (fun socket => exists s, socks w !! socket = Some s /\ dataGot s = true)
       (t_sock <$> tasks w).

Definition settled (st : PromiseState) : bool :=
  match st with
  | Awaiting _ _ => false
  | _ => true
  end.


(** *** Rejections nobody handles *)

(** The rejections of the promises of [execActions]. Both calls of
    [execActions], in the listeners of ['connection'] and of ['data'], drop
    the promise they get and nothing else in the script holds it or listens
    to ['unhandledRejection'], so every one of them is unhandled. *)
Definition unhandled (w : World) : list JsError :=
  omap (fun t => match t_state t with
                 | Rejected e => Some e
                 | _ => None
                 end) (tasks w).

(** Node ends the process on a rejection nobody handles (the default mode
    of [--unhandled-rejections]): the listening server and every open
    connection go with it. *)
Definition process_ends (w : World) : bool :=
  match unhandled w with
  | [] => false
  | _ => true
  end.

(** *** The action set as the usage text writes it *)

(** [pieces.join(sep)] for a separator of one code unit. *)
Fixpoint join (sep : N) (pieces : list jstring) : jstring :=
  match pieces with
  | [] => []
  | piece :: pieces' =>
      match pieces' with
      | [] => piece
      | _ => piece ++ sep :: join sep pieces'
      end
  end.

(** [<action>[=<param>]] *)
Definition render_action (a : Action) : jstring :=
  cmd a ++ match param a with
           | Some p => PARAM_SEP :: p
           | None => []
           end.

(** ["ACT["<set>"]"] with [<set> ::= "" | <action>[=<param>][,<action>[=<param>]]...] *)
Definition render (actions : list Action) : jstring :=
  ACT_SIGN_OPEN ++ join ACT_SEP (render_action <$> actions) ++ ACT_SIGN_CLOSE.

(** A text free of the separators of the grammar: [,], [=] and []]. *)
Definition sepfree (s : jstring) : Prop :=
  (ACT_SEP ∉ s) /\ (PARAM_SEP ∉ s) /\ (93 ∉ s).

(** An action the grammar can write down: a kind that is not empty and
    holds no separator, and a parameter, if any, that holds none. *)
Definition writable (a : Action) : Prop :=
  cmd a <> [] /\ sepfree (cmd a)
  /\ match param a with
     | Some p => sepfree p
     | None => True
     end.

(** The escape [%XX] of a code unit below 256, in upper-case digits. *)
Definition hexdigit (d : N) : N := if d <? 10 then 48 + d else 55 + d.

Definition percent_encode (s : jstring) : jstring :=
  s ≫= fun c => [37; hexdigit (c / 16); hexdigit (c mod 16)].

(** The socket a call of the trace is made on. *)
Definition target (e : Effect) : option nat :=
  match e with
  | SockWrite id _ => Some id
  | SockEnd id => Some id
  | _ => None
  end.

(** An action whose call leaves a pending promise, and how many of a
    list do: that many callbacks take the loop through the list. *)
Definition suspends (socket : nat) (item : Action) : bool :=
  match METHOD_MAP_get (cmd item) with
  | Some v =>
      match invoke v socket item with
      | Suspended _ _ => true
      | _ => false
      end
  | None => false
  end.

Definition suspensions (socket : nat) (items : list Action) : nat :=
  length (List.filter (suspends socket) items).

(** *** Start of the script *)

(** [!isNaN(Number(arg))]; the conversion goes through floating point and
    is left to the runtime. *)
Variable isNumeric : jstring -> bool.

(** How the script ends its start: the usage text is printed, an argument
    is reported as an incorrect action list, or the server listens.
    [portNum] is the argument whose number is the port, [None] for
    [DEF_PORT]; [globActions] is [None] for [undefined]. *)
Inductive Startup :=
  | PrintUsage
  | ActionListIncorrect (arg : jstring)
  | Listen (portNum : option jstring) (globActions : option (list Action)).

(** The [while] loop over the arguments. *)
Fixpoint read_args (args : list jstring) (portNum : option jstring)
  (globActions : option (list Action)) : Startup :=
  match args with
  | [] => Listen portNum globActions
  | arg :: args' =>
      if isNumeric arg then read_args args' (Some arg) globActions
      else
        match parseRequest arg with
        | None => ActionListIncorrect arg
        | Some actions => read_args args' portNum (Some actions)
        end
  end.

Definition usage_flags : list jstring := [lit "/?"; lit "-?"; lit "?"].

(** The main part of the script up to [net.createServer()]. *)
Definition main (args : list jstring) : Startup :=
  match args with
  | [arg] =>
      if bool_decide (arg ∈ usage_flags) then PrintUsage
      else read_args args None None
  | _ => read_args args None None
  end.

(** ** The parser: lemmas *)

Lemma startsWith_spec pat s :
  JS.startsWith pat s = true <-> exists post, s = pat ++ post.
Proof.
  revert s. induction pat as [|p pat IH]; intros s; simpl.
  - split; [intros _; by exists s | done].
  - destruct s as [|c s].
    + split; [done | intros [post H]; discriminate].
    + rewrite andb_true_iff, N.eqb_eq, IH. split.
      * intros [-> [post ->]]. by exists post.
      * intros [post H]. injection H as -> ->. split; [done | by exists post].
Qed.

Lemma includes_spec pat s : JS.includes pat s = true <-> contains pat s.
Proof.
  unfold contains. induction s as [|c s IH]; simpl.
  - rewrite startsWith_spec. split.
    + intros [post H]. by exists [], post.
    + intros [pre [post H]]. symmetry in H.
      apply app_eq_nil in H as [-> H]. by exists post.
  - rewrite orb_true_iff, startsWith_spec, IH. split.
    + intros [[post H] | [pre [post H]]].
      * by exists [], post.
      * exists (c :: pre), post. by rewrite H.
    + intros [[|c' pre] [post H]].
      * left. by exists post.
      * right. injection H as _ H. by exists pre, post.
Qed.

Lemma split_nonempty sep s : JS.split sep s <> [].
Proof.
  destruct s as [|c s]; simpl; [done|].
  destruct (c =? sep); [done|]. by destruct (JS.split sep s).
Qed.

Lemma split_without sep s : sep ∉ s -> JS.split sep s = [s].
Proof.
  induction s as [|c s IH]; simpl; intros H; [done|].
  apply not_elem_of_cons in H as [Hc Hs].
  destruct (N.eqb_spec c sep) as [->|_]; [done|]. by rewrite IH.
Qed.

Lemma split_at_first sep k t :
  sep ∉ k -> JS.split sep (k ++ sep :: t) = k :: JS.split sep t.
Proof.
  induction k as [|c k IH]; simpl; intros H.
  - by rewrite N.eqb_refl.
  - apply not_elem_of_cons in H as [Hc Hk].
    destruct (N.eqb_spec c sep) as [->|_]; [done|]. by rewrite IH.
Qed.

(** The directive of a parsed request is empty or holds one entry for each
    piece between the commas of some text. *)
Lemma parseRequest_tokens request actions :
  parseRequest request = Some actions ->
  actions = [] \/ exists actStr, actions = action_of <$> JS.split ACT_SEP actStr.
Proof.
  unfold parseRequest.
  destruct (_ || _); [done|].
  destruct (JS.slice _ _ _) as [|c actStr] eqn:E; intros [= <-]; [by left|].
  right. by exists (c :: actStr).
Qed.

Lemma includes_indexOf_from pat s k :
  JS.includes pat s = true -> (k <= JS.indexOf_from pat s k)%Z.
Proof.
  revert k. induction s as [|c s IH]; intros k; simpl.
  - intros ->. lia.
  - destruct (JS.startsWith pat (c :: s)); simpl; [lia|].
    intros H. specialize (IH (k + 1)%Z H). lia.
Qed.

Lemma indexOf_from_single c a b k :
  c ∉ a -> JS.indexOf_from [c] (a ++ c :: b) k = (k + Z.of_nat (length a))%Z.
Proof.
  revert k. induction a as [|x a IH]; intros k H; simpl.
  - rewrite N.eqb_refl. simpl. lia.
  - apply not_elem_of_cons in H as [Hx Ha].
    destruct (N.eqb_spec c x) as [->|_]; [done|]. simpl.
    rewrite IH by done. lia.
Qed.

Lemma slice_inverted s a b :
  (0 <= b)%Z -> (b <= a)%Z -> JS.slice s a b = [].
Proof.
  intros H0 Hba. unfold JS.slice.
  destruct (Z.ltb_spec a 0); [lia|]. destruct (Z.ltb_spec b 0); [lia|].
  replace (Z.to_nat _) with 0%nat at 1 by lia. done.
Qed.

Lemma slice_middle (pre mid post : jstring) :
  JS.slice (pre ++ mid ++ post) (Z.of_nat (length pre))
    (Z.of_nat (length pre + length mid)) = mid.
Proof.
  unfold JS.slice. rewrite !length_app.
  destruct (Z.ltb_spec (Z.of_nat (length pre)) 0); [lia|].
  destruct (Z.ltb_spec (Z.of_nat (length pre + length mid)) 0); [lia|].
  replace (Z.to_nat (Z.min (Z.of_nat (length pre)) _)) with (length pre) by lia.
  rewrite drop_app_length.
  replace (Z.to_nat _) with (length mid) by lia.
  by rewrite take_app_length.
Qed.

(** Where a closing marker comes before the end of the first opening
    marker, the range of [slice] is inverted and the directive is empty,
    whatever stands between the markers that follow. *)
Lemma parseRequest_closing_first request :
  JS.includes ACT_SIGN_OPEN request = true ->
  JS.includes ACT_SIGN_CLOSE request = true ->
  (JS.indexOf ACT_SIGN_CLOSE request
   <= JS.indexOf ACT_SIGN_OPEN request + Z.of_nat (length ACT_SIGN_OPEN))%Z ->
  parseRequest request = Some [].
Proof.
  intros Ho Hc Hlt. unfold parseRequest. rewrite Ho, Hc.
  destruct request as [|c request]; [done|]. simpl negb. simpl orb. cbv iota.
  rewrite slice_inverted; [done| |done].
  by apply includes_indexOf_from.
Qed.

(** Where no closing marker comes before the first opening marker, the
    text of the action list is what stands between that marker and the
    first closing marker after it. *)
Lemma parseRequest_between (pre mid post : jstring) :
  93 ∉ pre -> 93 ∉ mid ->
  JS.indexOf ACT_SIGN_OPEN (pre ++ ACT_SIGN_OPEN ++ mid ++ ACT_SIGN_CLOSE ++ post)
  = Z.of_nat (length pre) ->
  parseRequest (pre ++ ACT_SIGN_OPEN ++ mid ++ ACT_SIGN_CLOSE ++ post)
  = match mid with
    | [] => Some []
    | _ => Some (action_of <$> JS.split ACT_SEP mid)
    end.
Proof.
  intros Hpre Hmid Hidx. unfold parseRequest. rewrite Hidx.
  assert (JS.includes ACT_SIGN_OPEN
            (pre ++ ACT_SIGN_OPEN ++ mid ++ ACT_SIGN_CLOSE ++ post) = true) as ->.
  { apply includes_spec. by exists pre, (mid ++ ACT_SIGN_CLOSE ++ post). }
  assert (JS.includes ACT_SIGN_CLOSE
            (pre ++ ACT_SIGN_OPEN ++ mid ++ ACT_SIGN_CLOSE ++ post) = true) as ->.
  { apply includes_spec. exists (pre ++ ACT_SIGN_OPEN ++ mid), post.
    by rewrite <- !app_assoc. }
  assert (JS.indexOf ACT_SIGN_CLOSE
            (pre ++ ACT_SIGN_OPEN ++ mid ++ ACT_SIGN_CLOSE ++ post)
          = Z.of_nat (length (pre ++ ACT_SIGN_OPEN) + length mid)) as ->.
  { unfold JS.indexOf.
    replace (pre ++ ACT_SIGN_OPEN ++ mid ++ ACT_SIGN_CLOSE ++ post)
      with ((pre ++ ACT_SIGN_OPEN ++ mid) ++ 93 :: post)
      by (by rewrite <- !app_assoc).
    change ACT_SIGN_CLOSE with [93].
    rewrite indexOf_from_single, !length_app; [lia|].
    rewrite !not_elem_of_app. repeat split; try done.
    apply (bool_decide_unpack _). by vm_compute. }
  replace (Z.of_nat (length pre) + Z.of_nat (length ACT_SIGN_OPEN))%Z
    with (Z.of_nat (length (pre ++ ACT_SIGN_OPEN)))
    by (rewrite length_app; lia).
  replace (pre ++ ACT_SIGN_OPEN ++ mid ++ ACT_SIGN_CLOSE ++ post)
    with ((pre ++ ACT_SIGN_OPEN) ++ mid ++ (ACT_SIGN_CLOSE ++ post))
    by (by rewrite <- !app_assoc).
  rewrite slice_middle.
  by destruct pre.
Qed.

(** ** The parser: claims *)

(** C1 on the payload [[1] ACT[CLOSE]]: the closing marker is looked for
    from the start of the payload, the bracket of [[1]] is found at
    position 2, before the opening marker, and the directive comes out
    empty although [CLOSE] stands between [ACT[] and the first []] after
    it. *)
Theorem parseRequest_closing_marker_from_start :
  JS.indexOf ACT_SIGN_OPEN (lit "[1] ACT[CLOSE]") = 4%Z
  /\ JS.indexOf ACT_SIGN_CLOSE (lit "[1] ACT[CLOSE]") = 2%Z
  /\ parseRequest (lit "[1] ACT[CLOSE]") = Some []
  /\ parseRequest (lit "ACT[CLOSE]") = Some [mkAction ACT_CLOSE None].
Proof. by vm_compute. Qed.

(** What [action_of] makes of a token: the kind is the text before the
    first [=]; the parameter is the text between the first [=] and the
    second one, or up to the end of the token when there is no second [=],
    and it is [undefined] when the token has no [=]. *)
Lemma action_of_first_two_pieces (k v rest : jstring) :
  PARAM_SEP ∉ k -> PARAM_SEP ∉ v ->
  action_of k = mkAction k None
  /\ action_of (k ++ PARAM_SEP :: v) = mkAction k (Some v)
  /\ action_of (k ++ PARAM_SEP :: v ++ PARAM_SEP :: rest) = mkAction k (Some v).
Proof.
  intros Hk Hv. unfold action_of. repeat split.
  - by rewrite split_without.
  - by rewrite split_at_first, split_without.
  - rewrite split_at_first by done. by rewrite split_at_first.
Qed.

(** C2 on the token [SEND=a=b]: the token is split at every [=] and the
    parameter is the second piece, [a]; the remainder [a=b] of the token
    after its first [=] is not what the action gets. A token without [=]
    has no second piece and its parameter is [undefined]. *)
Theorem action_of_remainder_dropped :
  JS.split PARAM_SEP (lit "SEND=a=b") = [lit "SEND"; lit "a"; lit "b"]
  /\ parseRequest (lit "ACT[SEND=a=b]") = Some [mkAction ACT_SEND (Some (lit "a"))]
  /\ param (action_of (lit "SEND=a=b")) <> Some (lit "a=b")
  /\ action_of (lit "CLOSE") = mkAction ACT_CLOSE None.
Proof. repeat split; by vm_compute. Qed.

(** C10: a payload that lacks the opening marker [ACT[] or the closing
    marker []] (the empty string among them) is no directive: [parseRequest],
    a total function, gives [undefined] there, hence never the empty
    directive. *)
Theorem parseRequest_undefined_without_markers request :
  ~ (contains ACT_SIGN_OPEN request /\ contains ACT_SIGN_CLOSE request) ->
  parseRequest request = None /\ parseRequest request <> Some [].
Proof.
  intros H. assert (parseRequest request = None) as E; [|by rewrite E].
  unfold parseRequest.
  destruct (JS.includes ACT_SIGN_OPEN request) eqn:Ho;
    destruct (JS.includes ACT_SIGN_CLOSE request) eqn:Hc;
    rewrite ?orb_true_r; simpl; try done.
  destruct H. by rewrite <- !includes_spec.
Qed.

(** A payload with the opening marker and no closing marker. *)
Lemma parseRequest_undefined_without_markers_witness :
  parseRequest (lit "GET /ACT[CLOSE HTTP/1.1") = None
  /\ parseRequest (lit "GET /ACT[CLOSE HTTP/1.1") <> Some [].
Proof.
  apply parseRequest_undefined_without_markers.
  rewrite <- !includes_spec. vm_compute. intros [_ H]. discriminate H.
Defined.

(** ** The executor: lemmas *)

Lemma jstring_eqb_eq a b : jstring_eqb a b = true <-> a = b.
Proof.
  revert b. induction a as [|x a IH]; intros [|y b]; simpl; try done.
  rewrite andb_true_iff, N.eqb_eq, IH. split; [by intros [-> ->] | by intros [= -> ->]].
Qed.

Lemma run_cons glob w ev evs :
  run glob w (ev :: evs) = run glob (step glob w ev) evs.
Proof. done. Qed.

Lemma resume_settled k w t :
  tasks w !! k = Some t -> settled (t_state t) = true -> resume k w = w.
Proof.
  intros Hk Hs. unfold resume. rewrite Hk.
  destruct t as [socket acts st]. by destruct st.
Qed.

Lemma callbacks_settled glob k w t n e :
  tasks w !! k = Some t -> settled (t_state t) = true ->
  run glob w (replicate n (Callback k e)) = w.
Proof.
  intros Hk Hs. induction n as [|n IH]; [done|].
  simpl replicate. rewrite run_cons. simpl step.
  by rewrite (resume_settled k w t).
Qed.

(** A suspended loop that is resumed by its callback each time, where no
    entry is missing and no call throws, runs through all its items. *)
Lemma loop_completes glob socket acts k items : forall n ss ts tr,
  Forall (fun a => completes socket a = true) items ->
  (length items <= n)%nat -> (k < length ts)%nat ->
  run glob
    (mkWorld ss (<[k := mkTask socket acts (exec_loop socket items).2]> ts)
       (tr ++ (exec_loop socket items).1))
    (replicate n (Callback k None))
  = mkWorld ss (<[k := mkTask socket acts Fulfilled]> ts)
      (tr ++ loop_effects socket items).
Proof.
  induction items as [|a rest IH]; intros n ss ts tr Hall Hn Hk.
  - simpl. eapply callbacks_settled; simpl.
    + by apply list_lookup_insert_eq.
    + done.
  - apply Forall_cons in Hall as [Ha Hall]. unfold completes in Ha.
    simpl exec_loop. simpl loop_effects.
    destruct (METHOD_MAP_get (cmd a)) as [v|]; [|done].
    destruct (invoke v socket a) as [|e|p es0] eqn:Ei; [|done|].
    + specialize (IH n ss ts (tr ++ [executing a]) Hall).
      destruct (exec_loop socket rest) as [es st]. simpl in *.
      rewrite <- !app_assoc in IH. apply IH; [lia|done].
    + destruct n as [|n]; [simpl in Hn; lia|].
      simpl replicate. rewrite run_cons. simpl step. unfold resume. simpl.
      rewrite list_lookup_insert_eq by done.
      specialize (IH n ss ts (tr ++ executing a :: es0) Hall).
      destruct (exec_loop socket rest) as [es st]. simpl in *.
      rewrite list_insert_insert_eq. rewrite <- !app_assoc in IH.
      rewrite <- !app_assoc. simpl. apply IH; [lia|done].
Qed.

Lemma ends_app id tr1 tr2 : ends id (tr1 ++ tr2) = (ends id tr1 + ends id tr2)%nat.
Proof. unfold ends. by rewrite List.filter_app, length_app. Qed.

Lemma ended_ends id tr : ended id tr = negb (ends id tr =? 0)%nat.
Proof.
  unfold ended, ends. induction tr as [|e tr IH]; [done|]. simpl.
  destruct (is_end id e); [done|]. by rewrite IH.
Qed.

Lemma METHOD_MAP_get_CLOSE : METHOD_MAP_get ACT_CLOSE = Some (VFunction act_close).
Proof. reflexivity. Qed.

(** Only the handler of [CLOSE] ends the socket. *)
Lemma started_no_end key v socket item id :
  key <> ACT_CLOSE -> METHOD_MAP_get key = Some v ->
  ends id (started (invoke v socket item)) = 0%nat.
Proof.
  intros Hne. unfold METHOD_MAP_get, METHOD_MAP, Object_prototype. cbn [assoc].
  destruct (jstring_eqb ACT_CLOSE key) eqn:E.
  { apply jstring_eqb_eq in E. congruence. }
  repeat (destruct (jstring_eqb _ key);
          [cbv beta iota; intros Hv; simplify_eq; cbn [invoke];
           unfold act_data, act_send, act_wait, act_shut;
           repeat case_match; try destruct (param item); done|]).
  done.
Qed.


Lemma ends_cons_log id args tr : ends id (Log args :: tr) = ends id tr.
Proof. done. Qed.

Lemma ends_loop_effects socket items id :
  Forall (fun a => completes socket a = true) items ->
  ends id (loop_effects socket items)
  = if decide (id = socket) then closes items else 0%nat.
Proof.
  induction items as [|a rest IH]; intros Hall.
  - by destruct (decide _).
  - apply Forall_cons in Hall as [Ha Hall]. specialize (IH Hall).
    unfold completes in Ha. simpl loop_effects. unfold closes. simpl List.filter.
    destruct (jstring_eqb (cmd a) ACT_CLOSE) eqn:E.
    + apply jstring_eqb_eq in E. rewrite E, METHOD_MAP_get_CLOSE.
      unfold executing. rewrite ends_cons_log, ends_app, IH.
      change (started _) with [SockEnd socket]. unfold ends, closes. simpl.
      destruct (decide (id = socket)) as [->|Hne].
      * by rewrite bool_decide_eq_true_2.
      * by rewrite bool_decide_eq_false_2.
    + destruct (METHOD_MAP_get (cmd a)) as [v|] eqn:Ev; [|done].
      unfold executing. rewrite ends_cons_log, ends_app, IH.
      rewrite (started_no_end (cmd a)); [done| |done].
      intros Hc. apply jstring_eqb_eq in Hc. congruence.
Qed.

Lemma loop_effects_snoc socket init a v :
  Forall (fun a => completes socket a = true) init ->
  METHOD_MAP_get (cmd a) = Some v ->
  loop_effects socket (init ++ [a])
  = loop_effects socket init ++ executing a :: started (invoke v socket a).
Proof.
  intros Hall Hv. induction init as [|b init IH]; simpl.
  - by rewrite Hv, app_nil_r.
  - apply Forall_cons in Hall as [Hb Hall]. unfold completes in Hb.
    destruct (METHOD_MAP_get (cmd b)); [|done].
    rewrite IH by done. simpl. f_equal. by rewrite app_assoc.
Qed.

Lemma insert_last {A} (l : list A) (x y : A) :
  <[length l := y]> (l ++ [x]) = l ++ [y].
Proof. rewrite insert_app_r_alt by lia. by rewrite Nat.sub_diag. Qed.

(** The world a directive leaves when each of its actions completes. *)
Lemma execActions_completes glob socket items w n :
  Forall (fun a => completes socket a = true) items ->
  (length items <= n)%nat ->
  run glob (execActions socket items w)
    (replicate n (Callback (length (tasks w)) None))
  = mkWorld (socks w) (tasks w ++ [mkTask socket items Fulfilled])
      (trace w ++ match items with
                  | [] => [Log [AStr (lit "No actions defined - do nothing")]]
                  | _ => loop_effects socket items
                  end).
Proof.
  intros Hall Hn. destruct items as [|a rest].
  - unfold execActions. eapply callbacks_settled; simpl.
    + by apply list_lookup_middle.
    + done.
  - pose proof (loop_completes glob socket (a :: rest) (length (tasks w))
                  (a :: rest) n (socks w)
                  (tasks w ++ [mkTask socket (a :: rest) Fulfilled])
                  (trace w) Hall Hn) as H.
    rewrite !insert_last in H. unfold execActions.
    destruct (exec_loop socket (a :: rest)) as [es st]. apply H.
    rewrite length_app. simpl. lia.
Qed.

(** *** What a step keeps *)

Lemma execActions_socks socket actions w :
  socks (execActions socket actions w) = socks w.
Proof. unfold execActions. by destruct (match actions with [] => _ | _ => _ end). Qed.

Lemma execActions_tasks socket actions w :
  exists st, tasks (execActions socket actions w)
             = tasks w ++ [mkTask socket actions st].
Proof.
  unfold execActions.
  destruct (match actions with [] => _ | _ => _ end) as [es st]. by exists st.
Qed.

Lemma resume_socks k w : socks (resume k w) = socks w.
Proof.
  unfold resume. destruct (tasks w !! k) as [[socket acts [p rest| |e]]|]; try done.
  by destruct (exec_loop socket rest).
Qed.

Lemma resume_calls k w : call_of <$> tasks (resume k w) = call_of <$> tasks w.
Proof.
  unfold resume.
  destruct (tasks w !! k) as [[socket acts [p rest| |e]]|] eqn:Hk; try done.
  destruct (exec_loop socket rest) as [es st]. simpl.
  rewrite list_fmap_insert. apply list_insert_id.
  by rewrite list_lookup_fmap, Hk.
Qed.

Lemma fail_task_call socket e t : call_of (fail_task socket e t) = call_of t.
Proof.
  unfold fail_task. destruct t as [s a [[]rest| |e']]; simpl; try done.
  by destruct (decide _).
Qed.

Lemma on_error_calls socket e w :
  call_of <$> tasks (on_error socket e w) = call_of <$> tasks w.
Proof.
  simpl. rewrite <- list_fmap_compose. apply list_fmap_ext.
  intros i t _. apply fail_task_call.
Qed.

(** A callback, an error and a close leave the sockets and the calls made
    so far as they are. *)
Lemma step_quiet glob w ev :
  is_connect ev = false -> is_data ev = false ->
  socks (step glob w ev) = socks w
  /\ call_of <$> tasks (step glob w ev) = call_of <$> tasks w.
Proof.
  destruct ev as [|socket reqStr|k err|socket e|socket]; try done; intros _ _; simpl.
  - split; [apply resume_socks | apply resume_calls].
  - destruct (decide _); [|done]. split; [done | apply on_error_calls].
  - by destruct (decide _).
Qed.

(** A promise that is settled stays as it is. *)
Lemma step_settled glob w ev k t :
  tasks w !! k = Some t -> settled (t_state t) = true ->
  tasks (step glob w ev) !! k = Some t.
Proof.
  intros Hk Hs.
  destruct ev as [|socket reqStr|j err|socket e|socket]; simpl.
  - unfold on_connection. destruct glob as [acts|]; [|done].
    destruct (execActions_tasks (length (socks w)) acts
                (mkWorld (socks w ++ [mkSocket false false])
                   (tasks w) (trace w ++ [Log [AStr (lit "Socket connected")]])))
      as [st ->].
    by apply lookup_app_l_Some.
  - destruct (socks w !! socket) as [s|] eqn:Hsock; [|done].
    destruct (onData s); [|done]. unfold on_data. rewrite Hsock.
    destruct (dataGot s); [done|].
    destruct (parseRequest reqStr) as [actions|]; [|done].
    match goal with |- tasks (execActions ?a ?b ?c) !! _ = _ =>
      destruct (execActions_tasks a b c) as [st ->] end.
    by apply lookup_app_l_Some.
  - destruct (decide (j = k)) as [->|Hne].
    + by rewrite (resume_settled k w t).
    + unfold resume.
      destruct (tasks w !! j) as [[s a [p rest| |e]]|]; try done.
      destruct (exec_loop s rest). simpl. by rewrite list_lookup_insert_ne.
  - destruct (decide _); [|done]. simpl. rewrite list_lookup_fmap, Hk. simpl.
    f_equal. unfold fail_task. by destruct (t_state t) as [[]| |].
  - by destruct (decide _).
Qed.

Lemma run_settled glob evs : forall w k t,
  tasks w !! k = Some t -> settled (t_state t) = true ->
  tasks (run glob w evs) !! k = Some t.
Proof.
  induction evs as [|ev evs IH]; intros w k t Hk Hs; [done|].
  rewrite run_cons. apply IH; [|done]. by apply step_settled.
Qed.

(** ** The executor: claims *)

(** C3 on the payload [ACT[toString,SEND=x]]: [toString] is none of the
    five kinds, yet [METHOD_MAP[item.cmd]] finds the method every object
    inherits, so the kind is not reported as unknown: the entry is logged
    as an action and called, the stream is not closed and the loop goes on
    with whatever follows, here [SEND]. *)
Theorem execActions_inherited_kind_is_called :
  (lit "toString" ∉ known_kinds)
  /\ (forall socket rest,
        exec_loop socket (mkAction (lit "toString") None :: rest)
        = (Log [AStr (lit "Executing action toString")] :: (exec_loop socket rest).1,
           (exec_loop socket rest).2))
  /\ trace (run None start [Connect; Data 0 (lit "ACT[toString,SEND=x]")])
     = [Log [AStr (lit "Socket connected")];
        Log [AStr (lit "Socket IN:"); AStr (lit "ACT[toString,SEND=x]")];
        Log [AStr (lit "Executing action toString")];
        Log [AStr (lit "Executing action SEND: x")];
        SockWrite 0 (CString (lit "x"))].
Proof.
  split; [|split; [|reflexivity]].
  - apply (bool_decide_unpack _). by vm_compute.
  - intros socket rest. cbn [exec_loop].
    change (METHOD_MAP_get (cmd (mkAction (lit "toString") None)))
      with (Some (VFunction (fun _ _ => Returned))).
    cbn [invoke]. by destruct (exec_loop socket rest).
Qed.

(** A kind that is neither an own key of [METHOD_MAP] nor a property of
    the prototype is reported, the socket is ended and the loop stops
    there: nothing of the rest is run. *)
Lemma exec_loop_unknown socket item rest :
  METHOD_MAP_get (cmd item) = None ->
  exec_loop socket (item :: rest)
  = ([Log [AStr (lit "ERROR - Unknown action"); AStr (cmd item)]; SockEnd socket],
     Fulfilled).
Proof. intros H. simpl. by rewrite H. Qed.

(** C5 on the payload [ACT[SEND,CLOSE]]: with no parameter [act_send]
    hands [undefined] to [socket.write], which raises; the promise of
    [execActions] is rejected whatever follows the [SEND], nothing is
    written and [CLOSE] is never reached. *)
Theorem act_send_undefined_rejects :
  (forall socket, act_send socket None = Threw ERR_INVALID_ARG_TYPE)
  /\ (forall socket rest,
        exec_loop socket (mkAction ACT_SEND None :: rest)
        = ([Log [AStr (lit "Executing action SEND")]], Rejected ERR_INVALID_ARG_TYPE))
  /\ (forall evs,
        tasks (run None (run None start [Connect; Data 0 (lit "ACT[SEND,CLOSE]")]) evs) !! 0%nat
        = Some (mkTask 0 [mkAction ACT_SEND None; mkAction ACT_CLOSE None]
                  (Rejected ERR_INVALID_ARG_TYPE))).
Proof.
  split; [reflexivity|]. split; [reflexivity|].
  intros evs. by apply run_settled.
Qed.

(** C6 on the parameter [%FF]: [unescape] turns the escape into the code
    unit 255 and the string is written as a string chunk, which the stream
    encodes in UTF-8, so the two bytes C3 BF go out, not the byte FF the
    escape stands for in URL-encoding. *)
Lemma act_send_escape_FF_two_bytes :
  act_send 0%nat (Some (lit "%FF")) = Suspended PSocket [SockWrite 0 (CString [255])]
  /\ JS.utf8 (JS.unescape (lit "%FF")) = [195; 191]
  /\ JS.utf8 (JS.unescape (lit "%FF")) <> [255]
  /\ act_send 0%nat (Some (lit "50% off%FF%0D%0A"))
     = Suspended PSocket [SockWrite 0 (CString (lit "50% off" ++ [255; 13; 10]))]
  /\ JS.utf8 (JS.unescape (lit "50% off%FF%0D%0A"))
     = lit "50% off" ++ [195; 191; 13; 10].
Proof. repeat split; done. Qed.

Lemma hexval_digit c x : JS.hexval c = Some x -> c <= 102 /\ x < 16.
Proof.
  unfold JS.hexval.
  destruct (N.leb_spec 48 c); destruct (N.leb_spec c 57); simpl;
    [intros [= <-]; lia| | |];
    (destruct (N.leb_spec 65 c); destruct (N.leb_spec c 70); simpl;
     [intros [= <-]; lia| | |]);
    (destruct (N.leb_spec 97 c); destruct (N.leb_spec c 102); simpl;
     [intros [= <-]; lia| | |]); done.
Qed.

Lemma hex2_byte a b n : JS.hex2 a b = Some n -> a <= 102 /\ n < 256.
Proof.
  unfold JS.hex2. destruct (JS.hexval a) as [x|] eqn:Ea; [|done].
  destruct (JS.hexval b) as [y|] eqn:Eb; [|done]. intros [= <-].
  apply hexval_digit in Ea, Eb. lia.
Qed.

Lemma unescape_escape a b n rest :
  JS.hex2 a b = Some n ->
  JS.unescape (37 :: a :: b :: rest) = n :: JS.unescape rest.
Proof.
  intros H. pose proof (hex2_byte a b n H) as [Ha _].
  unfold JS.unescape. cbn [JS.unescape_from]. change (37 =? 37) with true.
  cbv iota.
  assert (JS.decode_escape (a :: b :: rest) = Some (n, 2%nat)) as ->.
  { unfold JS.decode_escape.
    destruct rest as [|h2 [|h3 [|h4 rest]]]; rewrite ?H; try done.
    by destruct (N.eqb_spec a 117); [lia|]. }
  done.
Qed.

(** A [%] that starts no escape stands for itself and nothing after it is
    passed over. *)
Lemma unescape_stray t :
  JS.decode_escape t = None -> JS.unescape (37 :: t) = 37 :: JS.unescape t.
Proof.
  intros H. unfold JS.unescape. cbn [JS.unescape_from].
  change (37 =? 37) with true. cbv iota. by rewrite H.
Qed.

(** What [act_send] writes for a parameter and for an escape at its head:
    the chunk is the string [unescape] makes of the parameter, an escape
    [%XX] at the head stands for the one code unit [0xXX], any code unit
    but [%] stands for itself, and in UTF-8 the code unit of the escape is
    one byte below 128 and two bytes from 128 on. *)
Theorem act_send_writes_unescaped_string socket (a b n : N) (rest : jstring) :
  JS.hex2 a b = Some n ->
  (forall p, act_send socket (Some p)
             = Suspended PSocket [SockWrite socket (CString (JS.unescape p))])
  /\ JS.unescape (37 :: a :: b :: rest) = n :: JS.unescape rest
  /\ (forall c, c <> 37 -> JS.unescape (c :: rest) = c :: JS.unescape rest)
  /\ JS.utf8 (n :: JS.unescape rest)
     = (if n <? 128 then [n] else [192 + n / 64; 128 + n mod 64])
       ++ JS.utf8 (JS.unescape rest).
Proof.
  intros H. pose proof (hex2_byte a b n H) as [_ Hn]. repeat split.
  - intros [|c p]; reflexivity.
  - by apply unescape_escape.
  - intros c Hc. unfold JS.unescape. cbn [JS.unescape_from].
    by destruct (N.eqb_spec c 37).
  - cbn [JS.utf8]. destruct (N.ltb_spec n 128); [done|].
    destruct (N.ltb_spec n 2048); [done|lia].
Qed.

(** The escape [%0D] at the head of [%0D%0A]. *)
Lemma act_send_writes_unescaped_string_witness :
  JS.unescape (lit "%0D%0A") = 13 :: JS.unescape (lit "%0A")
  /\ JS.utf8 (13 :: JS.unescape (lit "%0A")) = [13] ++ JS.utf8 (JS.unescape (lit "%0A")).
Proof.
  destruct (act_send_writes_unescaped_string 0%nat 48 68 13 (lit "%0A"))
    as (_ & H1 & _ & H2); [reflexivity|].
  split; [exact H1 | exact H2].
Defined.

(** C7 as the code has it: when every action of a directive completes,
    the promise of [execActions] is fulfilled, [end] has been called on the
    socket once for each [CLOSE] of the directive and on no other socket,
    the trace stops with what the last action did, and a further callback
    does nothing; so a directive without any [CLOSE] leaves the socket as
    open as it was. *)
Theorem execActions_no_implicit_close glob socket items w n :
  Forall (fun a => completes socket a = true) items ->
  (length items <= n)%nat ->
  let k := length (tasks w) in
  let w' := run glob (execActions socket items w) (replicate n (Callback k None)) in
  tasks w' = tasks w ++ [mkTask socket items Fulfilled]
  /\ (forall id, ends id (trace w')
                 = (ends id (trace w)
                    + if decide (id = socket) then closes items else 0)%nat)
  /\ (closes items = 0%nat -> ended socket (trace w') = ended socket (trace w))
  /\ (forall init a v, items = init ++ [a] -> METHOD_MAP_get (cmd a) = Some v ->
        exists es, trace w'
                   = trace w ++ es ++ executing a :: started (invoke v socket a))
  /\ (forall err, step glob w' (Callback k err) = w').
Proof.
  intros Hall Hn k w'. subst k w'.
  rewrite (execActions_completes glob socket items w n Hall Hn). simpl.
  assert (forall id,
    ends id (trace w ++ match items with
                        | [] => [Log [AStr (lit "No actions defined - do nothing")]]
                        | _ => loop_effects socket items
                        end)
    = (ends id (trace w) + if decide (id = socket) then closes items else 0)%nat)
    as Hends.
  { intros id. rewrite ends_app. f_equal. destruct items as [|a rest].
    - by destruct (decide _).
    - by apply ends_loop_effects. }
  split; [done|]. split; [done|]. split; [|split].
  - intros Hc. rewrite !ended_ends, Hends, Hc.
    rewrite decide_True by done. by rewrite Nat.add_0_r.
  - intros init a v -> Hv. exists (loop_effects socket init).
    apply Forall_app in Hall as [Hinit _]. f_equal.
    rewrite (loop_effects_snoc socket init a v) by done.
    by destruct init.
  - intros err. eapply resume_settled; simpl; [by apply list_lookup_middle|done].
Qed.

(** What an ['error'] of a socket does to a task that awaits a write or
    an end on it: the listener of the connection logs the error and the
    promise of that [execActions] is rejected and stays so, while the
    records of the sockets and of the other tasks are as before. A handler
    that throws when it is called rejects the promise likewise, with no
    line logged, and an error handed to a callback resolves it. Whether the
    process goes on after the rejection is not said here, see
    [process_ends]. *)
Theorem socket_error_stops_directive glob w k socket acts rest e :
  tasks w !! k = Some (mkTask socket acts (Awaiting PSocket rest)) ->
  (socket < length (socks w))%nat ->
  let w1 := step glob w (SockError socket e) in
  trace w1 = trace w ++ [Log [AStr (lit "Socket Error"); AErr e]]
  /\ socks w1 = socks w
  /\ (forall evs,
        tasks (run glob w1 evs) !! k = Some (mkTask socket acts (Rejected e)))
  /\ (forall j t, tasks w !! j = Some t -> t_sock t <> socket ->
        tasks w1 !! j = Some t)
  /\ (forall v item items e',
        METHOD_MAP_get (cmd item) = Some v -> invoke v socket item = Threw e' ->
        exec_loop socket (item :: items) = ([executing item], Rejected e'))
  /\ (forall j s a p items err,
        tasks w !! j = Some (mkTask s a (Awaiting p items)) ->
        trace (step glob w (Callback j (Some err)))
        = trace w ++ (exec_loop s items).1).
Proof.
  intros Hk Hs w1. subst w1. simpl. rewrite decide_True by done. simpl.
  repeat split.
  - intros evs. apply run_settled; [|done]. simpl.
    rewrite list_lookup_fmap, Hk. unfold fail_task. simpl.
    by rewrite decide_True.
  - intros j t Hj Hne. rewrite list_lookup_fmap, Hj. simpl. f_equal.
    unfold fail_task. destruct (t_state t) as [[]| |]; try done.
    by rewrite decide_False.
  - intros v item items e' Hv Hi. simpl. by rewrite Hv, Hi.
  - intros j s a p items err Hj. unfold resume. rewrite Hj.
    by destruct (exec_loop s items).
Qed.

Lemma rejected_ends_process w k t e :
  tasks w !! k = Some t -> t_state t = Rejected e -> process_ends w = true.
Proof.
  intros Hk Hs. unfold process_ends.
  assert (e ∈ unhandled w) as Hin.
  { apply list_elem_of_omap. exists t.
    split; [by eapply list_elem_of_lookup_2 | by rewrite Hs]. }
  destruct (unhandled w); [by apply elem_of_nil in Hin | done].
Qed.

(** A rejection is never handled later either: once the promise of any
    task is rejected, the process ends whatever events are still due. *)
Lemma rejection_ends_process glob evs w k t e :
  tasks w !! k = Some t -> t_state t = Rejected e ->
  process_ends (run glob w evs) = true.
Proof.
  intros Hk Hs. apply (rejected_ends_process _ k t e); [|done].
  apply run_settled; [done|]. by rewrite Hs.
Qed.

(** C4 on two open connections, the first with [ACT[SEND=x,CLOSE]] and a
    socket error while its write is awaited: the error is logged and [CLOSE]
    is never run, but the rejected promise of [execActions] has been
    dropped by the listener that made the call, so the rejection is
    unhandled and the process ends, and with it the second connection and
    the listening server: the failure is not kept to its session. When the
    failure is handed to the callback instead, the one of the write or the
    one of [server.close], the error is not looked at: nothing is logged
    and the directive goes on with its next action. *)
Theorem handler_failure_is_not_contained :
  let w := run None start
             [Connect; Connect; Data 0 (lit "ACT[SEND=x,CLOSE]");
              SockError 0 (ERR_IO (lit "EPIPE"))] in
  trace w
  = [Log [AStr (lit "Socket connected")]; Log [AStr (lit "Socket connected")];
     Log [AStr (lit "Socket IN:"); AStr (lit "ACT[SEND=x,CLOSE]")];
     Log [AStr (lit "Executing action SEND: x")];
     SockWrite 0 (CString (lit "x"));
     Log [AStr (lit "Socket Error"); AErr (ERR_IO (lit "EPIPE"))]]
  /\ tasks w
     = [mkTask 0 [mkAction ACT_SEND (Some (lit "x")); mkAction ACT_CLOSE None]
          (Rejected (ERR_IO (lit "EPIPE")))]
  /\ length (socks w) = 2%nat
  /\ unhandled w = [ERR_IO (lit "EPIPE")]
  /\ (forall evs, process_ends (run None w evs) = true)
  /\ trace (run None start
              [Connect; Data 0 (lit "ACT[SEND=x,CLOSE]");
               Callback 0 (Some (ERR_IO (lit "EPIPE")))])
     = [Log [AStr (lit "Socket connected")];
        Log [AStr (lit "Socket IN:"); AStr (lit "ACT[SEND=x,CLOSE]")];
        Log [AStr (lit "Executing action SEND: x")];
        SockWrite 0 (CString (lit "x"));
        Log [AStr (lit "Executing action CLOSE")]; SockEnd 0]
  /\ trace (run None start
              [Connect; Data 0 (lit "ACT[SHUT,SEND=x]");
               Callback 0 (Some (ERR_IO (lit "ERR_SERVER_NOT_RUNNING")))])
     = [Log [AStr (lit "Socket connected")];
        Log [AStr (lit "Socket IN:"); AStr (lit "ACT[SHUT,SEND=x]")];
        Log [AStr (lit "Executing action SHUT")]; SrvClose;
        Log [AStr (lit "Executing action SEND: x")];
        SockWrite 0 (CString (lit "x"))].
Proof.
  repeat split; try reflexivity.
  intros evs. by eapply (rejection_ends_process None evs _ 0%nat).
Qed.

(** *** Sessions under a global action set *)

Lemma global_data_ignored acts w socket reqStr :
  global_inv acts w -> step (Some acts) w (Data socket reqStr) = w.
Proof.
  intros [Hs _]. simpl. destruct (socks w !! socket) as [s|] eqn:Hsock; [|done].
  rewrite Forall_lookup in Hs. by destruct (Hs _ _ Hsock) as [-> _].
Qed.

Lemma global_inv_step acts w ev :
  global_inv acts w -> global_inv acts (step (Some acts) w ev).
Proof.
  intros [Hs Ht].
  destruct ev as [|socket reqStr|k err|socket e|socket] eqn:Eev.
  - simpl. unfold on_connection.
    match goal with |- global_inv _ (execActions ?a ?b ?c) =>
      destruct (execActions_tasks a b c) as [st Hst];
      pose proof (execActions_socks a b c) as Hso end.
    simpl in Hst, Hso. split.
    + rewrite Hso. apply Forall_app. split; [done|]. by apply Forall_singleton.
    + rewrite Hst, Hso, fmap_app, Ht, length_app. simpl.
      rewrite Nat.add_1_r, seq_S, fmap_app. done.
  - by rewrite global_data_ignored.
  - destruct (step_quiet (Some acts) w (Callback k err)) as [Hso Hca]; try done.
    split; [by rewrite Hso | by rewrite Hca, Hso].
  - destruct (step_quiet (Some acts) w (SockError socket e)) as [Hso Hca]; try done.
    split; [by rewrite Hso | by rewrite Hca, Hso].
  - destruct (step_quiet (Some acts) w (SockClosed socket)) as [Hso Hca]; try done.
    split; [by rewrite Hso | by rewrite Hca, Hso].
Qed.

Lemma global_inv_run acts evs : forall w,
  global_inv acts w -> global_inv acts (run (Some acts) w evs).
Proof.
  induction evs as [|ev evs IH]; intros w H; [done|].
  rewrite run_cons. by apply IH, global_inv_step.
Qed.

Lemma global_run_without_data acts evs : forall w,
  global_inv acts w ->
  run (Some acts) w evs
  = run (Some acts) w (List.filter (fun ev => negb (is_data ev)) evs).
Proof.
  induction evs as [|ev evs IH]; intros w H; [done|].
  rewrite run_cons. simpl List.filter. destruct (is_data ev) eqn:Ed; cbn [negb].
  - destruct ev; try done. rewrite global_data_ignored by done. by apply IH.
  - rewrite run_cons. by apply IH, global_inv_step.
Qed.

Lemma run_socks_length glob evs : forall w,
  length (socks (run glob w evs))
  = (length (socks w) + length (List.filter is_connect evs))%nat.
Proof.
  induction evs as [|ev evs IH]; intros w; [simpl; lia|].
  rewrite run_cons, IH. simpl List.filter.
  destruct ev as [|socket reqStr|k err|socket e|socket] eqn:Eev; simpl is_connect; cbv iota.
  - simpl step. unfold on_connection.
    destruct glob as [acts|]; [rewrite execActions_socks|];
      simpl; rewrite length_app; simpl; lia.
  - f_equal. simpl. destruct (socks w !! socket) as [s|] eqn:Hsock; [|done].
    destruct (onData s); [|done]. unfold on_data. rewrite Hsock.
    destruct (dataGot s); [done|].
    destruct (parseRequest reqStr); [rewrite execActions_socks|];
      simpl; by rewrite length_insert.
  - by destruct (step_quiet glob w (Callback k err)) as [-> _].
  - by destruct (step_quiet glob w (SockError socket e)) as [-> _].
  - by destruct (step_quiet glob w (SockClosed socket)) as [-> _].
Qed.

Lemma executing_in_loop_effects socket items :
  Forall (fun a => completes socket a = true) items ->
  Forall (fun a => executing a ∈ loop_effects socket items) items.
Proof.
  induction items as [|a rest IH]; intros Hall; [done|].
  apply Forall_cons in Hall as [Ha Hall]. unfold completes in Ha.
  simpl loop_effects. destruct (METHOD_MAP_get (cmd a)) as [v|]; [|done].
  apply Forall_cons. split; [by left|].
  eapply Forall_impl; [exact (IH Hall)|]. intros b Hb. simpl.
  right. rewrite elem_of_app. by right.
Qed.

(** C8: with a global action set, in every run of the server each
    connection has led to one call of [execActions], made when it was
    accepted and with the global action set, and to no other; no socket has
    the ['data'] listener or the [dataGot] mark, and the run is the one
    without any of its ['data'] events, whatever their payloads hold. The
    call runs the directive: the listener of ['connection'] logs the
    connection and goes through the loop up to its first suspension; and
    when every action of the global action set completes, then after the
    callbacks of the new task, with whatever payloads coming in between,
    the promise is fulfilled, every action has been logged as executed, the
    trace has grown by the connection and the effects of all the actions in
    order, and [end] has been called on the new socket once for each
    [CLOSE]. *)
Theorem global_directive_once_per_session acts evs :
  let w := run (Some acts) start evs in
  let socket := length (socks w) in
  call_of <$> tasks w = (fun socket => (socket, acts)) <$> seq 0 (length (socks w))
  /\ length (socks w) = length (List.filter is_connect evs)
  /\ Forall (fun s => onData s = false /\ dataGot s = false) (socks w)
  /\ w = run (Some acts) start (List.filter (fun ev => negb (is_data ev)) evs)
  /\ trace (step (Some acts) w Connect)
     = trace w ++ Log [AStr (lit "Socket connected")]
       :: match acts with
          | [] => [Log [AStr (lit "No actions defined - do nothing")]]
          | _ => (exec_loop socket acts).1
          end
  /\ (forall n more,
        Forall (fun a => completes socket a = true) acts ->
        (length acts <= n)%nat ->
        List.filter (fun ev => negb (is_data ev)) more
        = replicate n (Callback (length (tasks w)) None) ->
        let w' := run (Some acts) w (Connect :: more) in
        tasks w' = tasks w ++ [mkTask socket acts Fulfilled]
        /\ trace w'
           = trace w ++ Log [AStr (lit "Socket connected")]
             :: match acts with
                | [] => [Log [AStr (lit "No actions defined - do nothing")]]
                | _ => loop_effects socket acts
                end
        /\ Forall (fun a => executing a ∈ trace w') acts
        /\ ends socket (trace w') = (ends socket (trace w) + closes acts)%nat).
Proof.
  assert (global_inv acts start) as H0 by (by split).
  pose proof (global_inv_run acts evs start H0) as Hinv.
  destruct Hinv as [Hs Ht] eqn:Einv. clear Einv.
  intros w socket. subst w socket.
  split; [done|]. split; [by rewrite run_socks_length|]. split; [done|].
  split; [by apply global_run_without_data|]. split.
  - simpl. unfold on_connection, execActions. simpl.
    destruct acts as [|a acts]; [by rewrite <- app_assoc|].
    destruct (exec_loop _ (a :: acts)) as [es st]. simpl.
    by rewrite <- app_assoc.
  - intros n more Hall Hn Hmore w'. subst w'.
    set (w := run (Some acts) start evs) in *.
    assert (run (Some acts) w (Connect :: more)
            = mkWorld (socks w ++ [mkSocket false false])
                (tasks w ++ [mkTask (length (socks w)) acts Fulfilled])
                (trace w ++ Log [AStr (lit "Socket connected")]
                 :: match acts with
                    | [] => [Log [AStr (lit "No actions defined - do nothing")]]
                    | _ => loop_effects (length (socks w)) acts
                    end)) as ->.
    { rewrite run_cons.
      rewrite global_run_without_data
        by (apply global_inv_step; by split).
      rewrite Hmore. cbn [step]. unfold on_connection.
      pose proof (execActions_completes (Some acts) (length (socks w)) acts
                    (mkWorld (socks w ++ [mkSocket false false]) (tasks w)
                       (trace w ++ [Log [AStr (lit "Socket connected")]]))
                    n Hall Hn) as H.
      cbn [tasks socks trace] in H. rewrite H. by rewrite <- app_assoc. }
    cbn [tasks trace]. split; [done|]. split; [done|]. split.
    + destruct acts as [|a acts]; [done|].
      eapply Forall_impl; [exact (executing_in_loop_effects _ _ Hall)|].
      intros b Hb. rewrite elem_of_app. right. by right.
    + rewrite ends_app. f_equal. unfold executing.
      destruct acts as [|a acts]; [done|].
      rewrite ends_cons_log, ends_loop_effects by done.
      by rewrite decide_True.
Qed.

(** *** Sessions without a global action set *)

Lemma task_socks_calls (ts : list Task) : t_sock <$> ts = (call_of <$> ts).*1.
Proof. by rewrite <- list_fmap_compose. Qed.

Lemma inbound_inv_step w ev : inbound_inv w -> inbound_inv (step None w ev).
Proof.
  intros (Hl & Hnd & Hg).
  destruct ev as [|socket reqStr|k err|socket e|socket] eqn:Eev.
  - simpl. unfold on_connection, inbound_inv. simpl. repeat split.
    + apply Forall_app. split; [done|]. by apply Forall_singleton.
    + done.
    + eapply Forall_impl; [exact Hg|]. intros id (s & Hs & Hd).
      exists s. split; [by apply lookup_app_l_Some | done].
  - simpl. destruct (socks w !! socket) as [s|] eqn:Hsock; [|done].
    rewrite Forall_lookup in Hl. rewrite (Hl _ _ Hsock).
    rewrite <- Forall_lookup in Hl.
    unfold on_data. rewrite Hsock. destruct (dataGot s) eqn:Hd; [done|].
    assert (Forall (fun s0 => onData s0 = true)
              (<[socket := mkSocket true (onData s)]> (socks w))) as Hl'.
    { apply Forall_insert; [done|]. simpl.
      rewrite Forall_lookup in Hl. by apply (Hl _ _ Hsock). }
    assert (forall id, (exists s0, socks w !! id = Some s0 /\ dataGot s0 = true) ->
              exists s0, <[socket := mkSocket true (onData s)]> (socks w) !! id = Some s0
                         /\ dataGot s0 = true) as Hkeep.
    { intros id (s0 & Hs0 & Hd0). destruct (decide (socket = id)) as [->|Hne].
      - exists (mkSocket true (onData s)). split; [|done].
        apply list_lookup_insert_eq. by eapply lookup_lt_Some.
      - exists s0. by rewrite list_lookup_insert_ne. }
    destruct (parseRequest reqStr) as [actions|].
    + match goal with |- inbound_inv (execActions ?a ?b ?c) =>
        destruct (execActions_tasks a b c) as [st Hst];
        pose proof (execActions_socks a b c) as Hso end.
      unfold inbound_inv. rewrite Hst, Hso. simpl. rewrite fmap_app. simpl.
      repeat split; [done| |].
      * apply NoDup_app. repeat split; [done| |apply NoDup_singleton].
        intros id Hid Hin. apply list_elem_of_singleton in Hin as ->.
        rewrite Forall_forall in Hg. destruct (Hg _ Hid) as (s0 & Hs0 & Hd0).
        congruence.
      * apply Forall_app. split.
        -- eapply Forall_impl; [exact Hg|]. exact Hkeep.
        -- apply Forall_singleton. exists (mkSocket true (onData s)).
           split; [|done]. apply list_lookup_insert_eq. by eapply lookup_lt_Some.
    + unfold inbound_inv. simpl. repeat split; [done|done|].
      eapply Forall_impl; [exact Hg|]. exact Hkeep.
  - destruct (step_quiet None w (Callback k err)) as [Hso Hca]; try done.
    unfold inbound_inv. by rewrite task_socks_calls, Hso, Hca, <- task_socks_calls.
  - destruct (step_quiet None w (SockError socket e)) as [Hso Hca]; try done.
    unfold inbound_inv. by rewrite task_socks_calls, Hso, Hca, <- task_socks_calls.
  - destruct (step_quiet None w (SockClosed socket)) as [Hso Hca]; try done.
    unfold inbound_inv. by rewrite task_socks_calls, Hso, Hca, <- task_socks_calls.
Qed.

Lemma inbound_inv_run evs : forall w,
  inbound_inv w -> inbound_inv (run None w evs).
Proof.
  induction evs as [|ev evs IH]; intros w H; [done|].
  rewrite run_cons. by apply IH, inbound_inv_step.
Qed.

(** C9: without a global action set, in every run of the server no two
    calls of [execActions] are on the same socket; a payload that comes in
    on a socket that has its [dataGot] mark is logged and nothing else
    happens, whatever it holds; and a socket has the mark as soon as one
    payload has come in on it. *)
Theorem one_directive_per_session evs :
  let w := run None start evs in
  NoDup (t_sock <$> tasks w)
  /\ (forall socket s reqStr,
        socks w !! socket = Some s -> dataGot s = true ->
        step None w (Data socket reqStr)
        = mkWorld (socks w) (tasks w)
            (trace w ++ [Log [AStr (lit "Socket IN:"); AStr reqStr]]))
  /\ (forall socket s reqStr,
        socks w !! socket = Some s ->
        exists s', socks (step None w (Data socket reqStr)) !! socket = Some s'
                   /\ dataGot s' = true).
Proof.
  assert (inbound_inv start) as H0.
  { repeat split; simpl; [done | apply NoDup_nil_2 | done]. }
  destruct (inbound_inv_run evs start H0) as (Hl & Hnd & Hg).
  simpl. split; [done|]. rewrite Forall_lookup in Hl. split.
  - intros socket s reqStr Hs Hd. rewrite Hs, (Hl _ _ Hs).
    unfold on_data. by rewrite Hs, Hd.
  - intros socket s reqStr Hs. rewrite Hs, (Hl _ _ Hs).
    unfold on_data. rewrite Hs. destruct (dataGot s) eqn:Hd.
    + by exists s.
    + exists (mkSocket true (onData s)). split; [|done].
      destruct (parseRequest reqStr); [rewrite execActions_socks|]; simpl;
        apply list_lookup_insert_eq; by eapply lookup_lt_Some.
Qed.

(** ** Further properties of the parser *)

Lemma indexOf_from_upper pat a b k :
  JS.startsWith pat b = true ->
  (JS.indexOf_from pat (a ++ b) k <= k + Z.of_nat (length a))%Z.
Proof.
  intros Hb. revert k. induction a as [|x a IH]; intros k.
  - simpl. destruct b as [|y b]; simpl in *; rewrite Hb; lia.
  - change ((x :: a) ++ b) with (x :: (a ++ b)). cbn [JS.indexOf_from].
    destruct (JS.startsWith pat (x :: a ++ b)); [simpl; lia|].
    specialize (IH (k + 1)%Z). simpl length. lia.
Qed.

Lemma indexOf_from_occurs pat s k :
  JS.includes pat s = true ->
  exists a b, s = a ++ pat ++ b
              /\ JS.indexOf_from pat s k = (k + Z.of_nat (length a))%Z.
Proof.
  revert k. induction s as [|c s IH]; intros k; simpl.
  - intros H. rewrite H. apply startsWith_spec in H as [post H].
    exists [], post. split; [done|simpl; lia].
  - destruct (JS.startsWith pat (c :: s)) eqn:E; simpl.
    + intros _. apply startsWith_spec in E as [post E].
      exists [], post. split; [done|simpl; lia].
    + intros H. destruct (IH (k + 1)%Z H) as (a & b & -> & Hi).
      exists (c :: a), b. split; [done|]. rewrite Hi. simpl length. lia.
Qed.

Lemma contains_app_r pat pre s : contains pat s -> contains pat (pre ++ s).
Proof.
  intros (a & b & ->). exists (pre ++ a), b. by rewrite <- app_assoc.
Qed.

(** An occurrence that ends within a prefix is an occurrence in the prefix. *)
Lemma contains_prefix pat (a b pre post : jstring) :
  a ++ pat ++ b = pre ++ post -> (length (a ++ pat) <= length pre)%nat ->
  contains pat pre.
Proof.
  intros E Hl. exists a, (take (length pre - length (a ++ pat)) b).
  assert (take (length pre) ((a ++ pat) ++ b) = pre) as Hp.
  { rewrite <- app_assoc, E. apply take_app_length. }
  rewrite take_app_ge in Hp by done. by rewrite app_assoc.
Qed.

Lemma indexOf_first (pre rest : jstring) :
  ~ contains ACT_SIGN_OPEN (pre ++ lit "ACT") ->
  JS.indexOf ACT_SIGN_OPEN (pre ++ ACT_SIGN_OPEN ++ rest) = Z.of_nat (length pre).
Proof.
  intros Hno. unfold JS.indexOf.
  pose proof (indexOf_from_upper ACT_SIGN_OPEN pre (ACT_SIGN_OPEN ++ rest) 0) as Hup.
  destruct (indexOf_from_occurs ACT_SIGN_OPEN (pre ++ ACT_SIGN_OPEN ++ rest) 0)
    as (a & b & E & Hi).
  { apply includes_spec. by exists pre, rest. }
  rewrite Hi in *. specialize (Hup ltac:(by apply startsWith_spec; exists rest)).
  destruct (decide (length a = length pre)) as [->|Hne]; [lia|].
  destruct Hno. symmetry in E.
  change (ACT_SIGN_OPEN ++ rest) with (lit "ACT" ++ 91 :: rest) in E.
  rewrite (app_assoc pre) in E.
  apply (contains_prefix _ a b _ (91 :: rest) E).
  rewrite !length_app. simpl. lia.
Qed.

(** [parseRequest] accepts a payload exactly when both markers occur
    somewhere in it, in whatever order. *)
Theorem parseRequest_defined_iff_markers request :
  (exists actions, parseRequest request = Some actions)
  <-> contains ACT_SIGN_OPEN request /\ contains ACT_SIGN_CLOSE request.
Proof.
  rewrite <- !includes_spec. unfold parseRequest.
  destruct (JS.includes ACT_SIGN_OPEN request) eqn:Ho;
    destruct (JS.includes ACT_SIGN_CLOSE request) eqn:Hc;
    rewrite ?orb_true_r; simpl; try (split; [by intros [? ?] | by intros [? ?]]).
  destruct request as [|c request]; [done|]. simpl.
  split; [done|]. intros _. destruct (JS.slice _ _ _); by eexists.
Qed.

(** The action list is the text between the first opening marker and the
    first closing marker after it whenever no closing marker stands before
    that opening marker: for a payload [pre ++ "ACT[" ++ mid ++ "]" ++ post]
    with no []] in [pre] and [mid] and no earlier [ACT[], the directive has
    one action for each piece of [mid] between commas, and is empty when
    [mid] is. *)
Theorem parseRequest_text_between_markers (pre mid post : jstring) :
  93 ∉ pre -> 93 ∉ mid -> ~ contains ACT_SIGN_OPEN (pre ++ lit "ACT") ->
  parseRequest (pre ++ ACT_SIGN_OPEN ++ mid ++ ACT_SIGN_CLOSE ++ post)
  = match mid with
    | [] => Some []
    | _ => Some (action_of <$> JS.split ACT_SEP mid)
    end.
Proof.
  intros Hpre Hmid Hno. apply parseRequest_between; [done|done|].
  by apply indexOf_first.
Qed.

Lemma parseRequest_text_between_markers_witness :
  parseRequest (lit "GET /" ++ ACT_SIGN_OPEN ++ lit "WAIT=5,CLOSE" ++ ACT_SIGN_CLOSE
                ++ lit " HTTP/1.1 [x]")
  = Some (action_of <$> JS.split ACT_SEP (lit "WAIT=5,CLOSE")).
Proof.
  apply (parseRequest_text_between_markers (lit "GET /") (lit "WAIT=5,CLOSE")
           (lit " HTTP/1.1 [x]")).
  - apply (bool_decide_unpack _). by vm_compute.
  - apply (bool_decide_unpack _). by vm_compute.
  - rewrite <- includes_spec. by vm_compute.
Defined.

(** A closing marker that stands before the first opening marker empties
    the directive: for a payload [pre ++ "]" ++ post] where [ACT[] occurs in
    [post] and not in [pre], [parseRequest] gives the empty directive
    whatever actions follow the opening marker. *)
Theorem parseRequest_empty_when_closing_first (pre post : jstring) :
  ~ contains ACT_SIGN_OPEN pre -> contains ACT_SIGN_OPEN post ->
  parseRequest (pre ++ 93 :: post) = Some [].
Proof.
  intros Hno Hpost.
  assert (JS.includes ACT_SIGN_OPEN (pre ++ 93 :: post) = true) as Ho.
  { apply includes_spec, contains_app_r. by apply (contains_app_r _ [93]). }
  apply parseRequest_closing_first; [done| |].
  { apply includes_spec. by exists pre, post. }
  pose proof (indexOf_from_upper ACT_SIGN_CLOSE pre (93 :: post) 0 eq_refl) as Hc.
  destruct (indexOf_from_occurs ACT_SIGN_OPEN (pre ++ 93 :: post) 0 Ho)
    as (a & b & E & Hi).
  unfold JS.indexOf. rewrite Hi.
  destruct (decide (length (a ++ ACT_SIGN_OPEN) <= length pre)%nat) as [Hl|Hl].
  - destruct Hno. symmetry in E. by apply (contains_prefix _ a b _ _ E).
  - rewrite length_app in Hl. lia.
Qed.

Lemma parseRequest_empty_when_closing_first_witness :
  parseRequest (lit "a[0" ++ 93 :: lit "=1; ACT[SEND=x,CLOSE]") = Some [].
Proof.
  apply parseRequest_empty_when_closing_first; rewrite <- includes_spec;
    by vm_compute.
Defined.

Lemma split_pieces_free sep s : Forall (fun piece => sep ∉ piece) (JS.split sep s).
Proof.
  induction s as [|c s IH]; simpl.
  - apply Forall_singleton, not_elem_of_nil.
  - destruct (N.eqb_spec c sep) as [->|Hne].
    + apply Forall_cons. split; [apply not_elem_of_nil | done].
    + destruct (JS.split sep s) as [|piece pieces].
      * apply Forall_singleton. rewrite not_elem_of_cons. split; [done|].
        apply not_elem_of_nil.
      * apply Forall_cons in IH as [Hp Hps]. apply Forall_cons. split; [|done].
        rewrite not_elem_of_cons. by split.
Qed.

Lemma split_pieces_sub sep s :
  Forall (fun piece => piece ⊆ s) (JS.split sep s).
Proof.
  induction s as [|c s IH]; simpl.
  - by apply Forall_singleton.
  - assert (Forall (fun piece => piece ⊆ c :: s) (JS.split sep s)) as IH'.
    { eapply Forall_impl; [exact IH|]. intros piece Hp x Hx.
      apply elem_of_cons. right. by apply Hp. }
    destruct (c =? sep).
    + apply Forall_cons. split; [|done]. intros x Hx. by apply elem_of_nil in Hx.
    + destruct (JS.split sep s) as [|piece pieces].
      * apply Forall_singleton. intros x Hx. apply elem_of_cons.
        apply elem_of_cons in Hx as [->|Hx]; [by left|by apply elem_of_nil in Hx].
      * apply Forall_cons in IH as [Hp Hps]. apply Forall_cons in IH' as [_ Hps'].
        apply Forall_cons. split; [|done].
        intros x Hx. apply elem_of_cons.
        apply elem_of_cons in Hx as [->|Hx]; [by left|right; by apply Hp].
Qed.

(** What [slice] cuts out before the first occurrence of a code unit does
    not hold that code unit. *)
Lemma slice_before_first c (a b : jstring) from :
  c ∉ a -> c ∉ JS.slice (a ++ c :: b) from (Z.of_nat (length a)).
Proof.
  intros Ha. unfold JS.slice. rewrite length_app. simpl length.
  destruct (Z.ltb_spec (Z.of_nat (length a)) 0); [lia|].
  rewrite (Z.min_l (Z.of_nat (length a))) by lia.
  set (f := if (from <? 0)%Z then _ else _).
  assert (0 <= f)%Z as Hf by (subst f; destruct (Z.ltb_spec from 0); lia).
  destruct (Z.le_gt_cases f (Z.of_nat (length a))) as [Hle|Hgt].
  - intros Hin. rewrite take_drop_commute in Hin. apply subseteq_drop in Hin.
    rewrite take_app_le in Hin by lia. by apply subseteq_take in Hin.
  - replace (Z.to_nat (Z.max _ 0)) with 0%nat by lia. apply not_elem_of_nil.
Qed.

Lemma action_of_sepfree piece :
  ACT_SEP ∉ piece -> 93 ∉ piece ->
  sepfree (cmd (action_of piece))
  /\ match param (action_of piece) with
     | Some p => sepfree p
     | None => True
     end.
Proof.
  intros Hc Hb.
  assert (Forall sepfree ([] :: JS.split PARAM_SEP piece)) as Hall.
  { apply Forall_cons. split.
    { repeat split; apply not_elem_of_nil. }
    pose proof (split_pieces_free PARAM_SEP piece) as Hf.
    pose proof (split_pieces_sub PARAM_SEP piece) as Hs.
    rewrite Forall_forall in Hf, Hs. apply Forall_forall. intros q Hq.
    repeat split; [|by apply Hf|]; intros Hin; apply (Hs q Hq) in Hin; done. }
  apply Forall_cons in Hall as [Hnil Hall]. unfold action_of. simpl. split.
  - destruct (JS.split PARAM_SEP piece) as [|q qs]; [done|].
    by apply Forall_cons in Hall as [? _].
  - destruct (JS.split PARAM_SEP piece !! 1%nat) as [p|] eqn:E; [|done].
    by eapply Forall_lookup_1.
Qed.

(** The text a directive was read from. *)
Lemma parseRequest_Some request actions :
  parseRequest request = Some actions ->
  JS.includes ACT_SIGN_CLOSE request = true
  /\ exists actStr,
       actStr = JS.slice request
                  (JS.indexOf ACT_SIGN_OPEN request
                   + Z.of_nat (length ACT_SIGN_OPEN))
                  (JS.indexOf ACT_SIGN_CLOSE request)
       /\ actions = match actStr with
                    | [] => []
                    | _ => action_of <$> JS.split ACT_SEP actStr
                    end.
Proof.
  unfold parseRequest.
  destruct (negb (JS.truthy (Some request))); [done|].
  destruct (JS.includes ACT_SIGN_OPEN request); [|done].
  destruct (JS.includes ACT_SIGN_CLOSE request); [|done].
  cbn [negb orb]. cbv zeta. intros H. split; [done|].
  eexists. split; [reflexivity|].
  destruct (JS.slice _ _ _); by injection H.
Qed.

(** No kind and no parameter of a parsed directive holds a comma, an
    equals sign or a closing bracket. *)
Theorem parsed_actions_hold_no_separator request actions :
  parseRequest request = Some actions ->
  Forall (fun a => sepfree (cmd a)
                   /\ match param a with
                      | Some p => sepfree p
                      | None => True
                      end) actions.
Proof.
  intros H. apply parseRequest_Some in H as (Hc & actStr & Hstr & ->).
  apply includes_spec in Hc as (pre & post & E).
  assert (93 ∈ request) as Hin.
  { rewrite E, !elem_of_app. right. left. by apply list_elem_of_singleton. }
  apply list_elem_of_split_l in Hin as (a & b & -> & Ha).
  change ACT_SIGN_CLOSE with [93] in Hstr. unfold JS.indexOf at 2 in Hstr.
  rewrite indexOf_from_single, Z.add_0_l in Hstr by done.
  pose proof (slice_before_first 93 a b
                (JS.indexOf ACT_SIGN_OPEN (a ++ 93 :: b)
                 + Z.of_nat (length ACT_SIGN_OPEN)) Ha) as Hs.
  rewrite <- Hstr in Hs. clear Hstr E.
  destruct actStr as [|c actStr]; [done|].
  apply Forall_fmap.
  pose proof (split_pieces_free ACT_SEP (c :: actStr)) as Hf.
  pose proof (split_pieces_sub ACT_SEP (c :: actStr)) as Hsub.
  rewrite Forall_forall in Hf, Hsub. apply Forall_forall. intros piece Hp.
  apply action_of_sepfree; [by apply Hf|].
  intros Hin. by apply (Hsub piece Hp) in Hin.
Qed.

Lemma parsed_actions_hold_no_separator_witness :
  Forall (fun a => sepfree (cmd a)
                   /\ match param a with
                      | Some p => sepfree p
                      | None => True
                      end)
    [mkAction ACT_SEND (Some (lit "a")); mkAction (lit "b") None].
Proof.
  apply (parsed_actions_hold_no_separator (lit "x ACT[SEND=a=c,b]d,e=f]")).
  reflexivity.
Defined.

Lemma split_join sep (pieces : list jstring) :
  pieces <> [] -> Forall (fun piece => sep ∉ piece) pieces ->
  JS.split sep (join sep pieces) = pieces.
Proof.
  induction pieces as [|piece pieces IH]; [done|]. intros _ Hall.
  apply Forall_cons in Hall as [Hp Hall]. cbn [join].
  destruct pieces as [|piece' pieces]; [by apply split_without|].
  rewrite split_at_first by done. by rewrite IH.
Qed.

Lemma join_free c sep (pieces : list jstring) :
  c <> sep -> Forall (fun piece => c ∉ piece) pieces -> c ∉ join sep pieces.
Proof.
  intros Hne. induction pieces as [|piece pieces IH]; intros Hall.
  - apply not_elem_of_nil.
  - apply Forall_cons in Hall as [Hp Hall]. cbn [join].
    destruct pieces as [|piece' pieces]; [done|].
    rewrite not_elem_of_app, not_elem_of_cons. repeat split; try done.
    by apply IH.
Qed.

Lemma render_action_free a :
  writable a -> (ACT_SEP ∉ render_action a) /\ (93 ∉ render_action a).
Proof.
  destruct a as [k [v|]]; unfold writable, sepfree, render_action; simpl.
  - intros (_ & (? & ? & ?) & (? & ? & ?)).
    rewrite !not_elem_of_app, !not_elem_of_cons. by repeat split.
  - intros (_ & (? & ? & ?) & _). by rewrite !app_nil_r.
Qed.

Lemma action_of_render_action a : writable a -> action_of (render_action a) = a.
Proof.
  destruct a as [k [v|]]; unfold writable, sepfree, render_action; simpl.
  - intros (_ & (? & ? & ?) & (? & ? & ?)).
    by apply (action_of_first_two_pieces k v []).
  - intros (_ & (? & ? & ?) & _). rewrite app_nil_r.
    by apply (action_of_first_two_pieces k [] []); [|apply not_elem_of_nil].
Qed.

Lemma parse_render (pre post : jstring) (actions : list Action) :
  93 ∉ pre -> ~ contains ACT_SIGN_OPEN (pre ++ lit "ACT") ->
  Forall writable actions ->
  parseRequest (pre ++ render actions ++ post) = Some actions.
Proof.
  intros Hpre Hno Hall. unfold render.
 rewrite <- !app_assoc.
  assert (Forall (fun piece => (ACT_SEP ∉ piece) /\ (93 ∉ piece))
            (render_action <$> actions)) as Hfree.
  { apply Forall_fmap. eapply Forall_impl; [exact Hall|].
    intros a Ha. by apply render_action_free. }
  rewrite parseRequest_between; [|done| |by apply indexOf_first].
  - destruct actions as [|a actions]; [done|].
    assert (join ACT_SEP (render_action <$> a :: actions) <> []) as Hne.
    { apply Forall_cons in Hall as [(Hk & _) _]. rewrite fmap_cons. cbn [join].
      destruct a as [k p]. simpl in Hk. destruct k as [|c k]; [done|].
      by destruct (render_action <$> actions). }
    destruct (join ACT_SEP (render_action <$> a :: actions)) eqn:E; [done|].
    rewrite <- E, split_join; [| done |].
    + f_equal. rewrite <- list_fmap_compose.
      rewrite <- (list_fmap_id (a :: actions)) at 2.
      apply Forall_fmap_ext_1. eapply Forall_impl; [exact Hall|].
      intros b Hb. by apply action_of_render_action.
    + eapply Forall_impl; [exact Hfree|]. by intros piece [? _].
  - apply join_free; [done|].
    eapply Forall_impl; [exact Hfree|]. by intros piece [_ ?].
Qed.

(** Writing a directive down as the usage text says and parsing the text
    gives the directive back, wherever the text stands in a payload that
    has no []] and no [ACT[] before it: each action keeps its kind and its
    parameter, and the order is kept. The kinds must not be empty, and
    kinds and parameters must hold no comma, equals sign or closing
    bracket. *)
Theorem parseRequest_render (pre post : jstring) (actions : list Action) :
  93 ∉ pre -> ~ contains ACT_SIGN_OPEN (pre ++ lit "ACT") ->
  Forall writable actions ->
  parseRequest (pre ++ render actions ++ post) = Some actions.
Proof. apply parse_render. Qed.

Lemma parseRequest_render_witness :
  parseRequest
    (lit "GET /"
     ++ render [mkAction ACT_SEND (Some (lit "Hello!%0D%0A"));
                mkAction ACT_DATA (Some (lit "1000")); mkAction ACT_CLOSE None]
     ++ lit " HTTP/1.1")
  = Some [mkAction ACT_SEND (Some (lit "Hello!%0D%0A"));
          mkAction ACT_DATA (Some (lit "1000")); mkAction ACT_CLOSE None].
Proof.
  apply parseRequest_render.
  - apply (bool_decide_unpack _). by vm_compute.
  - rewrite <- includes_spec. by vm_compute.
  - repeat constructor; try done;
      apply (bool_decide_unpack _); by vm_compute.
Defined.

Lemma split_length sep s :
  length (JS.split sep s) = S (length (List.filter (fun c => c =? sep) s)).
Proof.
  induction s as [|c s IH]; [done|]. simpl.
  destruct (c =? sep); simpl; [by rewrite IH|].
  destruct (JS.split sep s); simpl in *; lia.
Qed.

(** A directive has one action more than its text has commas, empty
    pieces included: a comma at the start or the end of the text, or two
    commas in a row, give an action with the empty kind. *)
Theorem parseRequest_one_action_per_piece (pre mid post : jstring) actions :
  93 ∉ pre -> 93 ∉ mid -> ~ contains ACT_SIGN_OPEN (pre ++ lit "ACT") ->
  mid <> [] ->
  parseRequest (pre ++ ACT_SIGN_OPEN ++ mid ++ ACT_SIGN_CLOSE ++ post)
  = Some actions ->
  length actions = S (length (List.filter (fun c => c =? ACT_SEP) mid))
  /\ (forall pieces, mid = ACT_SEP :: pieces -> head actions = Some (mkAction [] None))
  /\ (forall pieces, mid = pieces ++ [ACT_SEP] -> last actions = Some (mkAction [] None)).
Proof.
  intros Hpre Hmid Hno Hne.
  rewrite parseRequest_between; [|done|done|by apply indexOf_first].
  destruct mid as [|c mid]; [done|]. intros H.
  assert (actions = action_of <$> JS.split ACT_SEP (c :: mid)) as ->
    by congruence.
  split; [by rewrite length_fmap, split_length|]. split.
  - by intros pieces [= -> ->].
  - intros pieces E. rewrite E.
    assert (forall l, JS.split ACT_SEP (l ++ [ACT_SEP])
                      = JS.split ACT_SEP l ++ [[]]) as Hs.
    { induction l as [|x l IH]; [done|]. simpl. rewrite IH.
      destruct (x =? ACT_SEP); [done|].
      pose proof (split_nonempty ACT_SEP l).
      by destruct (JS.split ACT_SEP l). }
    rewrite Hs, fmap_app. change (action_of <$> [[]]) with [action_of []].
    by rewrite last_snoc.
Qed.

Lemma parseRequest_one_action_per_piece_witness :
  length [mkAction ACT_CLOSE None; mkAction [] None]
  = S (length (List.filter (fun c => c =? ACT_SEP) (lit "CLOSE,"))).
Proof.
  apply (parseRequest_one_action_per_piece [] (lit "CLOSE,") []
           [mkAction ACT_CLOSE None; mkAction [] None]).
  - apply not_elem_of_nil.
  - apply (bool_decide_unpack _). by vm_compute.
  - rewrite <- includes_spec. by vm_compute.
  - done.
  - reflexivity.
Defined.

(** ** Further properties of the executor *)

Lemma run_app glob w evs1 evs2 :
  run glob w (evs1 ++ evs2) = run glob (run glob w evs1) evs2.
Proof. apply foldl_app. Qed.

(** A loop over [pre ++ tail] whose actions of [pre] all complete is, after
    one callback for each action of [pre] that suspends, where the loop
    over [tail] alone would be at its start. *)
Lemma loop_prefix glob socket acts k pre tail : forall ss ts tr,
  Forall (fun a => completes socket a = true) pre -> (k < length ts)%nat ->
  run glob
    (mkWorld ss (<[k := mkTask socket acts (exec_loop socket (pre ++ tail)).2]> ts)
       (tr ++ (exec_loop socket (pre ++ tail)).1))
    (replicate (suspensions socket pre) (Callback k None))
  = mkWorld ss (<[k := mkTask socket acts (exec_loop socket tail).2]> ts)
      (tr ++ loop_effects socket pre ++ (exec_loop socket tail).1).
Proof.
  induction pre as [|a pre IH]; intros ss ts tr Hall Hk; [done|].
  apply Forall_cons in Hall as [Ha Hall]. unfold completes in Ha.
  unfold suspensions. simpl List.filter. unfold suspends at 1.
  change ((a :: pre) ++ tail) with (a :: (pre ++ tail)).
  simpl exec_loop. simpl loop_effects.
  destruct (METHOD_MAP_get (cmd a)) as [v|]; [|done].
  destruct (invoke v socket a) as [|e|p es0] eqn:Ei; [|done|].
  - specialize (IH ss ts (tr ++ [executing a]) Hall Hk).
    destruct (exec_loop socket (pre ++ tail)) as [es st]. simpl in *.
    rewrite <- !app_assoc in IH. exact IH.
  - simpl length. simpl replicate. rewrite run_cons. simpl step.
    unfold resume. simpl. rewrite list_lookup_insert_eq by done.
    specialize (IH ss ts (tr ++ executing a :: es0) Hall Hk).
    destruct (exec_loop socket (pre ++ tail)) as [es st]. simpl in *.
    rewrite list_insert_insert_eq. rewrite <- !app_assoc in IH.
    rewrite <- !app_assoc. exact IH.
Qed.

Lemma execActions_prefix glob socket pre a tail w :
  Forall (fun a => completes socket a = true) pre ->
  run glob (execActions socket (pre ++ a :: tail) w)
    (replicate (suspensions socket pre) (Callback (length (tasks w)) None))
  = mkWorld (socks w)
      (tasks w ++ [mkTask socket (pre ++ a :: tail) (exec_loop socket (a :: tail)).2])
      (trace w ++ loop_effects socket pre ++ (exec_loop socket (a :: tail)).1).
Proof.
  intros Hall.
  pose proof (loop_prefix glob socket (pre ++ a :: tail) (length (tasks w))
                pre (a :: tail) (socks w)
                (tasks w ++ [mkTask socket (pre ++ a :: tail) Fulfilled])
                (trace w) Hall) as H.
  rewrite !insert_last in H. unfold execActions.
  assert (exists b items, pre ++ a :: tail = b :: items) as (b & items & E)
    by (destruct pre; by eexists _, _).
  rewrite E in *. destruct (exec_loop socket (b :: items)) as [es st].
  apply H. rewrite length_app. simpl. lia.
Qed.

(** The actions of a directive run one at a time and in order: while an
    action is awaited, every action before it has been run to its end and
    nothing of the actions after it has been started. *)
Theorem actions_run_one_at_a_time glob socket pre a rest w v p es :
  Forall (fun a => completes socket a = true) pre ->
  METHOD_MAP_get (cmd a) = Some v -> invoke v socket a = Suspended p es ->
  let k := length (tasks w) in
  let w' := run glob (execActions socket (pre ++ a :: rest) w)
              (replicate (suspensions socket pre) (Callback k None)) in
  tasks w' = tasks w ++ [mkTask socket (pre ++ a :: rest) (Awaiting p rest)]
  /\ trace w' = trace w ++ loop_effects socket pre ++ executing a :: es.
Proof.
  intros Hall Hv Hi k w'. subst k w'.
  rewrite execActions_prefix by done. simpl. by rewrite Hv, Hi.
Qed.

Lemma assoc_None {A} key (table : list (jstring * A)) :
  key ∉ table.*1 -> assoc key table = None.
Proof.
  induction table as [|[k v] table IH]; [done|]. simpl.
  rewrite not_elem_of_cons. intros [Hne Hin].
  destruct (jstring_eqb k key) eqn:E; [|by apply IH].
  apply jstring_eqb_eq in E. congruence.
Qed.

(** A kind that is neither one of the five nor the name of a property of
    [Object.prototype] ends the directive: the actions before it are run,
    the kind is reported, [end] is called on the socket and the promise is
    fulfilled; nothing of the actions after it is run, whatever callbacks
    still come. *)
Theorem unknown_kind_stops_directive glob socket pre bad rest w n :
  Forall (fun a => completes socket a = true) pre ->
  cmd bad ∉ known_kinds -> cmd bad ∉ Object_prototype.*1 ->
  (suspensions socket pre <= n)%nat ->
  run glob (execActions socket (pre ++ bad :: rest) w)
    (replicate n (Callback (length (tasks w)) None))
  = mkWorld (socks w)
      (tasks w ++ [mkTask socket (pre ++ bad :: rest) Fulfilled])
      (trace w ++ loop_effects socket pre
       ++ [Log [AStr (lit "ERROR - Unknown action"); AStr (cmd bad)];
           SockEnd socket]).
Proof.
  intros Hall Hk Hp Hn.
  replace n with (suspensions socket pre + (n - suspensions socket pre))%nat by lia.
  rewrite replicate_add, run_app, execActions_prefix by done.
  assert (METHOD_MAP_get (cmd bad) = None) as Hget.
  { unfold METHOD_MAP_get. rewrite (assoc_None _ METHOD_MAP) by done.
    by apply assoc_None. }
  simpl exec_loop. rewrite Hget. simpl.
  eapply callbacks_settled; simpl; [by apply list_lookup_middle|done].
Qed.

Lemma started_targets key v socket item :
  METHOD_MAP_get key = Some v ->
  Forall (fun e => forall id, target e = Some id -> id = socket)
    (started (invoke v socket item)).
Proof.
  unfold METHOD_MAP_get, METHOD_MAP, Object_prototype. cbn [assoc].
  repeat (destruct (jstring_eqb _ key);
          [cbv beta iota; intros Hv; simplify_eq; cbn [invoke];
           unfold act_close, act_data, act_send, act_wait, act_shut;
           repeat case_match; try destruct (param item); simpl;
           repeat constructor; simpl; congruence|]).
  done.
Qed.

(** Running a directive for one socket makes no call on any other socket:
    every write and every end in the effects of the loop is on the socket
    the loop was given. *)
Theorem directive_touches_own_socket socket items :
  Forall (fun e => forall id, target e = Some id -> id = socket)
    (exec_loop socket items).1.
Proof.
  induction items as [|a rest IH]; [done|]. simpl.
  destruct (METHOD_MAP_get (cmd a)) as [v|] eqn:Ev.
  - pose proof (started_targets (cmd a) v socket a Ev) as Hs.
    destruct (invoke v socket a) as [|e|p es].
    + destruct (exec_loop socket rest) as [es st]. simpl in *.
      apply Forall_cons. by split.
    + simpl. by apply Forall_singleton.
    + simpl in *. apply Forall_cons. by split.
  - simpl. repeat constructor; simpl; congruence.
Qed.

(** Once the promise of a call of [execActions] is fulfilled or rejected,
    no event changes it: a directive that has ended or failed is never
    taken up again. *)
Theorem settled_promise_is_final glob evs w k t :
  tasks w !! k = Some t -> settled (t_state t) = true ->
  tasks (run glob w evs) !! k = Some t.
Proof. intros Hk Hs. by apply run_settled. Qed.

Lemma spent_step socket w ev :
  (exists s, socks w !! socket = Some s /\ dataGot s = true) ->
  socket ∉ t_sock <$> tasks w ->
  (exists s, socks (step None w ev) !! socket = Some s /\ dataGot s = true)
  /\ socket ∉ t_sock <$> tasks (step None w ev).
Proof.
  intros (s & Hs & Hd) Hno.
  destruct ev as [|socket' reqStr|k err|socket' e|socket'] eqn:Eev.
  - simpl. unfold on_connection. simpl. split; [|done].
    exists s. split; [by apply lookup_app_l_Some|done].
  - simpl. destruct (socks w !! socket') as [s'|] eqn:Hs'; [|by eauto].
    destruct (onData s'); [|by eauto]. unfold on_data. rewrite Hs'.
    destruct (dataGot s') eqn:Hd'; [by eauto|].
    assert (socket' <> socket) as Hne by congruence.
    destruct (parseRequest reqStr) as [actions|].
    + match goal with |- context [execActions ?a ?b ?c] =>
        destruct (execActions_tasks a b c) as [st Hst];
        pose proof (execActions_socks a b c) as Hso end.
      rewrite Hst, Hso. simpl. split.
      * exists s. by rewrite list_lookup_insert_ne.
      * rewrite fmap_app, not_elem_of_app. split; [done|]. simpl.
        rewrite not_elem_of_cons. split; [done|apply not_elem_of_nil].
    + simpl. split; [|done]. exists s. by rewrite list_lookup_insert_ne.
  - destruct (step_quiet None w (Callback k err)) as [Hso Hca]; try done.
    rewrite Hso, task_socks_calls, Hca, <- task_socks_calls. by eauto.
  - destruct (step_quiet None w (SockError socket' e)) as [Hso Hca]; try done.
    rewrite Hso, task_socks_calls, Hca, <- task_socks_calls. by eauto.
  - destruct (step_quiet None w (SockClosed socket')) as [Hso Hca]; try done.
    rewrite Hso, task_socks_calls, Hca, <- task_socks_calls. by eauto.
Qed.

Lemma spent_run socket evs : forall w,
  (exists s, socks w !! socket = Some s /\ dataGot s = true) ->
  socket ∉ t_sock <$> tasks w ->
  socket ∉ t_sock <$> tasks (run None w evs).
Proof.
  induction evs as [|ev evs IH]; intros w Hs Hno; [done|].
  rewrite run_cons. destruct (spent_step socket w ev Hs Hno) as [Hs' Hno'].
  by apply IH.
Qed.

(** Without a global action set, a first payload that is no directive
    uses the session up: it is logged and reported as incorrect, [end] is
    called on the socket, and no directive is ever run on that socket,
    whatever comes in on it later. *)
Theorem malformed_first_payload_spends_session evs1 evs2 socket s reqStr :
  socks (run None start evs1) !! socket = Some s -> dataGot s = false ->
  parseRequest reqStr = None ->
  trace (step None (run None start evs1) (Data socket reqStr))
  = trace (run None start evs1)
    ++ [Log [AStr (lit "Socket IN:"); AStr reqStr];
        Log [AStr (lit "Request incorrect")]; SockEnd socket]
  /\ socket ∉ t_sock <$> tasks (run None start (evs1 ++ Data socket reqStr :: evs2)).
Proof.
  intros Hs Hd Hp.
  assert (inbound_inv start) as H0.
  { repeat split; simpl; [done | apply NoDup_nil_2 | done]. }
  destruct (inbound_inv_run evs1 start H0) as (Hl & Hnd & Hg).
  rewrite Forall_lookup in Hl. pose proof (Hl _ _ Hs) as Hon.
  assert (socket ∉ t_sock <$> tasks (run None start evs1)) as Hno.
  { intros Hin. rewrite Forall_forall in Hg.
    destruct (Hg _ Hin) as (s' & Hs' & Hd'). congruence. }
  rewrite run_app, run_cons.
  assert (step None (run None start evs1) (Data socket reqStr)
          = mkWorld (<[socket := mkSocket true (onData s)]> (socks (run None start evs1)))
              (tasks (run None start evs1))
              (trace (run None start evs1)
               ++ [Log [AStr (lit "Socket IN:"); AStr reqStr];
                   Log [AStr (lit "Request incorrect")]; SockEnd socket])) as ->.
  { cbn [step]. rewrite Hs, Hon. unfold on_data. rewrite Hs, Hd, Hp.
    cbn [socks tasks trace]. f_equal; [by rewrite Hon | by rewrite <- app_assoc]. }
  split; [done|]. apply spent_run; [|done]. simpl.
  exists (mkSocket true (onData s)). split; [|done].
  apply list_lookup_insert_eq. by eapply lookup_lt_Some.
Qed.

(** Without a global action set every payload that comes in on a
    connected socket is logged first, also one that is then ignored. *)
Theorem every_payload_is_logged evs socket s reqStr :
  socks (run None start evs) !! socket = Some s ->
  exists es, trace (step None (run None start evs) (Data socket reqStr))
             = trace (run None start evs)
               ++ Log [AStr (lit "Socket IN:"); AStr reqStr] :: es.
Proof.
  intros Hs.
  assert (inbound_inv start) as H0.
  { repeat split; simpl; [done | apply NoDup_nil_2 | done]. }
  destruct (inbound_inv_run evs start H0) as (Hl & _ & _).
  rewrite Forall_lookup in Hl. cbn [step]. rewrite Hs, (Hl _ _ Hs).
  unfold on_data. rewrite Hs. destruct (dataGot s); [by exists []|].
  destruct (parseRequest reqStr) as [actions|].
  - unfold execActions.
    destruct (match actions with [] => _ | _ => _ end) as [es st].
    exists es. simpl. by rewrite <- app_assoc.
  - eexists. simpl. by rewrite <- app_assoc.
Qed.

(** ** Further properties of [SEND] *)

Lemma unescape_plain s : 37 ∉ s -> JS.unescape s = s.
Proof.
  unfold JS.unescape. induction s as [|c s IH]; [done|].
  rewrite not_elem_of_cons. intros [Hc Hs]. cbn [JS.unescape_from].
  destruct (N.eqb_spec c 37); [congruence|]. by rewrite IH.
Qed.

Lemma utf8_ascii s : Forall (fun c => c < 128) s -> JS.utf8 s = s.
Proof.
  induction 1 as [|c s Hc Hs IH]; [done|]. cbn [JS.utf8].
  destruct (N.ltb_spec c 128); [|lia]. by rewrite IH.
Qed.

(** A parameter of [SEND] that is plain ASCII without [%] goes out as it
    is, byte for byte. *)
Theorem act_send_plain_text socket (p : jstring) :
  37 ∉ p -> Forall (fun c => c < 128) p ->
  act_send socket (Some p) = Suspended PSocket [SockWrite socket (CString p)]
  /\ JS.utf8 p = p.
Proof.
  intros Hp Ha. split; [|by apply utf8_ascii].
  destruct p as [|c p]; [done|]. unfold act_send. simpl.
  by rewrite (unescape_plain (c :: p)).
Qed.

Lemma act_send_plain_text_witness :
  act_send 0%nat (Some (lit "HTTP/1.1 200 OK"))
  = Suspended PSocket [SockWrite 0 (CString (lit "HTTP/1.1 200 OK"))]
  /\ JS.utf8 (lit "HTTP/1.1 200 OK") = lit "HTTP/1.1 200 OK".
Proof.
  apply act_send_plain_text.
  - apply (bool_decide_unpack _). by vm_compute.
  - apply (bool_decide_unpack _). by vm_compute.
Defined.

Lemma hexval_hexdigit d : d < 16 -> JS.hexval (hexdigit d) = Some d.
Proof.
  intros Hd. unfold hexdigit, JS.hexval.
  destruct (N.ltb_spec d 10).
  - destruct (N.leb_spec 48 (48 + d)); [|lia].
    destruct (N.leb_spec (48 + d) 57); [|lia]. simpl. f_equal. lia.
  - destruct (N.leb_spec 48 (55 + d)); [|lia].
    destruct (N.leb_spec (55 + d) 57); [lia|]. simpl.
    destruct (N.leb_spec 65 (55 + d)); [|lia].
    destruct (N.leb_spec (55 + d) 70); [|lia]. simpl. f_equal. lia.
Qed.

Lemma hex2_hexdigit c :
  c < 256 -> JS.hex2 (hexdigit (c / 16)) (hexdigit (c mod 16)) = Some c.
Proof.
  intros Hc. unfold JS.hex2.
  rewrite !hexval_hexdigit.
  - f_equal. symmetry. apply N.div_mod. lia.
  - apply N.mod_upper_bound. lia.
  - apply N.Div0.div_lt_upper_bound. lia.
Qed.

Lemma unescape_percent_encode s :
  Forall (fun c => c < 256) s -> JS.unescape (percent_encode s) = s.
Proof.
  induction 1 as [|c s Hc Hs IH]; [done|].
  change (percent_encode (c :: s))
    with (37 :: hexdigit (c / 16) :: hexdigit (c mod 16) :: percent_encode s).
  rewrite (unescape_escape _ _ c) by (by apply hex2_hexdigit). by rewrite IH.
Qed.

Lemma hexdigit_range d :
  d < 16 -> 48 <= hexdigit d <= 57 \/ 65 <= hexdigit d <= 70.
Proof. intros Hd. unfold hexdigit. destruct (N.ltb_spec d 10); lia. Qed.

Lemma percent_encode_sepfree s :
  Forall (fun c => c < 256) s -> sepfree (percent_encode s).
Proof.
  intros Hs.
  assert (Forall (fun x => x = 37 \/ 48 <= x <= 57 \/ 65 <= x <= 70)
            (percent_encode s)) as Hall.
  { induction Hs as [|c s Hc Hs IH]; [done|].
    change (percent_encode (c :: s))
      with (37 :: hexdigit (c / 16) :: hexdigit (c mod 16) :: percent_encode s).
    repeat apply Forall_cons_2; try done; [by left| |]; right;
      apply hexdigit_range.
    - apply N.Div0.div_lt_upper_bound. lia.
    - apply N.mod_upper_bound. lia. }
  rewrite Forall_forall in Hall. unfold sepfree, ACT_SEP, PARAM_SEP.
  repeat split; intros Hin; apply Hall in Hin; lia.
Qed.

(** Any sequence of ASCII bytes, commas, equals signs, brackets and
    percent signs among them, can be sent: with every byte written as its
    escape [%XX], the action [SEND=...] is parsed as one action with that
    parameter, the chunk it writes is the byte sequence as a string, and
    the bytes of that string on the wire are the sequence itself. *)
Theorem send_escaped_ascii_bytes socket (bytes : jstring) :
  Forall (fun c => c < 128) bytes ->
  parseRequest (render [mkAction ACT_SEND (Some (percent_encode bytes))])
  = Some [mkAction ACT_SEND (Some (percent_encode bytes))]
  /\ act_send socket (Some (percent_encode bytes))
     = Suspended PSocket [SockWrite socket (CString bytes)]
  /\ JS.utf8 bytes = bytes.
Proof.
  intros Ha.
  assert (Forall (fun c => c < 256) bytes) as Hb.
  { eapply Forall_impl; [exact Ha|]. simpl. lia. }
  split; [|split; [|by apply utf8_ascii]].
  - rewrite <- (app_nil_r (render _)).
    apply (parse_render []); [apply not_elem_of_nil| |].
    + rewrite <- includes_spec. by vm_compute.
    + apply Forall_singleton. split; [done|]. split.
      * repeat split; apply (bool_decide_unpack _); by vm_compute.
      * by apply percent_encode_sepfree.
  - pose proof (unescape_percent_encode bytes Hb) as Hu.
    unfold act_send. destruct (JS.truthy _) eqn:Et.
    + change (JS.unescape <$> Some (percent_encode bytes))
        with (Some (JS.unescape (percent_encode bytes))).
      by rewrite Hu.
    + by destruct bytes.
Qed.

Lemma send_escaped_ascii_bytes_witness :
  act_send 0%nat (Some (percent_encode (lit "a=b,c]%")))
  = Suspended PSocket [SockWrite 0 (CString (lit "a=b,c]%"))].
Proof.
  apply (send_escaped_ascii_bytes 0%nat (lit "a=b,c]%")).
  apply (bool_decide_unpack _). by vm_compute.
Defined.

(** ** Properties of the start of the script *)

Lemma read_args_not_usage args : forall portNum globActions,
  read_args args portNum globActions <> PrintUsage.
Proof.
  induction args as [|arg args IH]; intros portNum globActions; simpl; [done|].
  destruct (isNumeric arg); [apply IH|].
  destruct (parseRequest arg); [apply IH|done].
Qed.

Lemma read_args_listen args : forall port0 glob0 portNum globActions,
  read_args args port0 glob0 = Listen portNum globActions ->
  Forall (fun arg => isNumeric arg = true \/ is_Some (parseRequest arg)) args
  /\ portNum = match last (List.filter isNumeric args) with
               | Some arg => Some arg
               | None => port0
               end
  /\ globActions
     = match last (List.filter (fun arg => negb (isNumeric arg)) args) with
       | Some arg => parseRequest arg
       | None => glob0
       end.
Proof.
  induction args as [|arg args IH]; intros port0 glob0 portNum globActions; simpl.
  - by intros [= <- <-].
  - destruct (isNumeric arg) eqn:En; simpl.
    + intros H. destruct (IH _ _ _ _ H) as (Hall & -> & ->).
      split; [apply Forall_cons; by auto|]. split; [|done].
      rewrite last_cons. by destruct (last (List.filter isNumeric args)).
    + destruct (parseRequest arg) as [actions|] eqn:Ep; [|done].
      intros H. destruct (IH _ _ _ _ H) as (Hall & -> & ->).
      split; [apply Forall_cons; split; [right; by eexists|done]|].
      split; [done|]. rewrite last_cons.
      by destruct (last (List.filter (fun arg => negb (isNumeric arg)) args)).
Qed.

Lemma read_args_reject pre arg post : forall port0 glob0,
  Forall (fun a => isNumeric a = true \/ is_Some (parseRequest a)) pre ->
  isNumeric arg = false -> parseRequest arg = None ->
  read_args (pre ++ arg :: post) port0 glob0 = ActionListIncorrect arg.
Proof.
  induction pre as [|a pre IH]; intros port0 glob0 Hall Hn Hp; simpl.
  - by rewrite Hn, Hp.
  - apply Forall_cons in Hall as [Ha Hall].
    destruct (isNumeric a) eqn:En; [by apply IH|].
    destruct Ha as [Ha|[actions Ha]]; [done|]. rewrite Ha. by apply IH.
Qed.

(** The usage text is printed only for a usage flag that is the one and
    only argument; a flag among other arguments is read as an argument
    like any other. *)
Theorem main_usage_only_for_lone_flag args :
  main args = PrintUsage <-> exists arg, args = [arg] /\ arg ∈ usage_flags.
Proof.
  split.
  - destruct args as [|arg [|arg' args]]; simpl.
    + done.
    + destruct (bool_decide (arg ∈ usage_flags)) eqn:E.
      * intros _. exists arg. split; [done|]. by apply bool_decide_eq_true in E.
      * intros H. by apply (read_args_not_usage [arg]) in H.
    + intros H. by apply (read_args_not_usage (arg :: arg' :: args)) in H.
  - intros (arg & -> & Hin). simpl. by rewrite bool_decide_eq_true_2.
Qed.

(** When the script gets as far as listening, every argument was a number
    or an action set that parses; the port is the last argument that is a
    number ([DEF_PORT] if there is none) and the global action set is the
    one of the last argument that is not a number (none if all are). *)
Theorem main_listens_with_last_arguments args portNum globActions :
  main args = Listen portNum globActions ->
  Forall (fun arg => isNumeric arg = true \/ is_Some (parseRequest arg)) args
  /\ portNum = last (List.filter isNumeric args)
  /\ globActions
     = last (List.filter (fun arg => negb (isNumeric arg)) args) ≫= parseRequest.
Proof.
  intros H.
  assert (read_args args None None = Listen portNum globActions) as Hr.
  { destruct args as [|arg [|arg' args]]; try done. simpl in H.
    by destruct (bool_decide (arg ∈ usage_flags)). }
  destruct (read_args_listen _ _ _ _ _ Hr) as (Hall & -> & ->).
  split; [done|]. split.
  - by destruct (last (List.filter isNumeric args)).
  - by destruct (last (List.filter (fun arg => negb (isNumeric arg)) args)).
Qed.

(** The script does not listen when an argument is neither a number nor
    an action set that parses: the first such argument is reported as an
    incorrect action list and the server is never created, whatever the
    arguments after it are. *)
Theorem main_reports_first_incorrect_argument pre arg post :
  Forall (fun a => isNumeric a = true \/ is_Some (parseRequest a)) pre ->
  isNumeric arg = false -> parseRequest arg = None ->
  (pre ++ post <> [] \/ arg ∉ usage_flags) ->
  main (pre ++ arg :: post) = ActionListIncorrect arg.
Proof.
  intros Hall Hn Hp Hflag.
  assert (main (pre ++ arg :: post) = read_args (pre ++ arg :: post) None None)
    as ->; [|by apply read_args_reject].
  destruct pre as [|a [|a' pre]]; destruct post as [|b post]; try done.
  simpl. destruct Hflag as [?|Hflag]; [done|]. by rewrite bool_decide_eq_false_2.
Qed.

End Server.

(** ** Runs on concrete payloads *)

(** A directive of three actions that complete, none of them [CLOSE],
    leaves the socket of a fresh connection as open as it was. *)
Lemma execActions_no_implicit_close_witness :
  ended 0
    (trace
       (run decimalSize None
          (execActions decimalSize 0
             [mkAction ACT_SEND (Some (lit "Hello!%0D%0A"));
              mkAction ACT_DATA (Some (lit "1000"));
              mkAction ACT_WAIT (Some (lit "1000"))]
             (run decimalSize None (start) [Connect]))
          (replicate 3 (Callback 0 None))))
  = ended 0 (trace (run decimalSize None (start) [Connect])).
Proof.
  pose proof (execActions_no_implicit_close decimalSize None 0
                [mkAction ACT_SEND (Some (lit "Hello!%0D%0A"));
                 mkAction ACT_DATA (Some (lit "1000"));
                 mkAction ACT_WAIT (Some (lit "1000"))]
                (run decimalSize None (start) [Connect]) 3) as H.
  destruct H as (_ & _ & H & _).
  - repeat constructor.
  - simpl. lia.
  - apply H. reflexivity.
Defined.

(** C7 on the directive of [ACT[CLOSE,WAIT=0]]: both actions complete,
    the directive does not end in [CLOSE], and the socket is ended all the
    same, by the [CLOSE] that came first. *)
Lemma close_then_wait_leaves_ended :
  parseRequest (lit "ACT[CLOSE,WAIT=0]")
  = Some [mkAction ACT_CLOSE None; mkAction ACT_WAIT (Some (lit "0"))]
  /\ forallb (completes decimalSize 0)
       [mkAction ACT_CLOSE None; mkAction ACT_WAIT (Some (lit "0"))] = true
  /\ tasks (run decimalSize None (start)
              [Connect; Data 0 (lit "ACT[CLOSE,WAIT=0]");
               Callback 0 None; Callback 0 None])
     = [mkTask 0 [mkAction ACT_CLOSE None; mkAction ACT_WAIT (Some (lit "0"))]
          Fulfilled]
  /\ ended 0
       (trace (run decimalSize None (start)
                 [Connect; Data 0 (lit "ACT[CLOSE,WAIT=0]");
                  Callback 0 None; Callback 0 None])) = true.
Proof. repeat split; by vm_compute. Qed.

(** An [EPIPE] on the socket while the write of [SEND=x] is awaited. *)
Lemma socket_error_stops_directive_witness :
  trace (step decimalSize None
           (run decimalSize None (start) [Connect; Data 0 (lit "ACT[SEND=x,CLOSE]")])
           (SockError 0 (ERR_IO (lit "EPIPE"))))
  = trace (run decimalSize None (start) [Connect; Data 0 (lit "ACT[SEND=x,CLOSE]")])
    ++ [Log [AStr (lit "Socket Error"); AErr (ERR_IO (lit "EPIPE"))]].
Proof.
  apply (socket_error_stops_directive decimalSize None
           (run decimalSize None (start) [Connect; Data 0 (lit "ACT[SEND=x,CLOSE]")])
           0 0 [mkAction ACT_SEND (Some (lit "x")); mkAction ACT_CLOSE None]
           [mkAction ACT_CLOSE None] (ERR_IO (lit "EPIPE"))).
  - reflexivity.
  - simpl. lia.
Defined.

(** C4 on the directive of [ACT[SHUT,SHUT,SEND=x]]: the second
    [server.close] finds the server stopped and hands the error to its
    callback; the error is not logged and the directive does not stop: the
    [SEND] that follows is run. *)
Lemma listener_stop_error_goes_on :
  trace (run decimalSize None (start)
           [Connect; Data 0 (lit "ACT[SHUT,SHUT,SEND=x]"); Callback 0 None;
            Callback 0 (Some (ERR_IO (lit "ERR_SERVER_NOT_RUNNING")))])
  = [Log [AStr (lit "Socket connected")];
     Log [AStr (lit "Socket IN:"); AStr (lit "ACT[SHUT,SHUT,SEND=x]")];
     Log [AStr (lit "Executing action SHUT")]; SrvClose;
     Log [AStr (lit "Executing action SHUT")]; SrvClose;
     Log [AStr (lit "Executing action SEND: x")];
     SockWrite 0 (CString (lit "x"))].
Proof. by vm_compute. Qed.

(** A second payload, itself a valid directive, on a socket whose first
    payload is still being executed. *)
Lemma one_directive_per_session_witness :
  step decimalSize None
    (run decimalSize None (start) [Connect; Data 0 (lit "ACT[WAIT=1000]")])
    (Data 0 (lit "ACT[CLOSE]"))
  = mkWorld
      (socks (run decimalSize None (start) [Connect; Data 0 (lit "ACT[WAIT=1000]")]))
      (tasks (run decimalSize None (start) [Connect; Data 0 (lit "ACT[WAIT=1000]")]))
      (trace (run decimalSize None (start) [Connect; Data 0 (lit "ACT[WAIT=1000]")])
       ++ [Log [AStr (lit "Socket IN:"); AStr (lit "ACT[CLOSE]")]]).
Proof.
  apply (proj1 (proj2 (one_directive_per_session decimalSize
                         [Connect; Data 0 (lit "ACT[WAIT=1000]")]))
           0%nat (mkSocket true true)); reflexivity.
Defined.

(** ** Further runs on concrete payloads and arguments *)

(** The directive of [ACT[SEND=a,WAIT=5,CLOSE]] while its [WAIT] is
    awaited. *)
Lemma actions_run_one_at_a_time_witness :
  trace (run decimalSize None
           (execActions decimalSize 0
              ([mkAction ACT_SEND (Some (lit "a"))]
               ++ mkAction ACT_WAIT (Some (lit "5")) :: [mkAction ACT_CLOSE None])
              (run decimalSize None start [Connect]))
           (replicate (suspensions decimalSize 0 [mkAction ACT_SEND (Some (lit "a"))])
              (Callback 0 None)))
  = trace (run decimalSize None start [Connect])
    ++ loop_effects decimalSize 0 [mkAction ACT_SEND (Some (lit "a"))]
    ++ executing (mkAction ACT_WAIT (Some (lit "5")))
       :: [SetTimeout (Some (lit "5"))].
Proof.
  apply (actions_run_one_at_a_time decimalSize None 0
           [mkAction ACT_SEND (Some (lit "a"))]
           (mkAction ACT_WAIT (Some (lit "5"))) [mkAction ACT_CLOSE None]
           (run decimalSize None start [Connect])
           (VFunction act_wait) PTimer [SetTimeout (Some (lit "5"))]).
  - repeat constructor.
  - reflexivity.
  - reflexivity.
Defined.

(** The directive of [ACT[WAIT=5,BOGUS=1,CLOSE]]. *)
Lemma unknown_kind_stops_directive_witness :
  run decimalSize None
    (execActions decimalSize 0
       ([mkAction ACT_WAIT (Some (lit "5"))]
        ++ mkAction (lit "BOGUS") (Some (lit "1")) :: [mkAction ACT_CLOSE None])
       (run decimalSize None start [Connect]))
    (replicate 3 (Callback (length (tasks (run decimalSize None start [Connect]))) None))
  = mkWorld (socks (run decimalSize None start [Connect]))
      (tasks (run decimalSize None start [Connect])
       ++ [mkTask 0 ([mkAction ACT_WAIT (Some (lit "5"))]
                     ++ mkAction (lit "BOGUS") (Some (lit "1"))
                        :: [mkAction ACT_CLOSE None]) Fulfilled])
      (trace (run decimalSize None start [Connect])
       ++ loop_effects decimalSize 0 [mkAction ACT_WAIT (Some (lit "5"))]
       ++ [Log [AStr (lit "ERROR - Unknown action");
                AStr (cmd (mkAction (lit "BOGUS") (Some (lit "1"))))];
           SockEnd 0]).
Proof.
  apply (unknown_kind_stops_directive decimalSize None 0
           [mkAction ACT_WAIT (Some (lit "5"))]
           (mkAction (lit "BOGUS") (Some (lit "1"))) [mkAction ACT_CLOSE None]
           (run decimalSize None start [Connect]) 3).
  - repeat constructor.
  - apply (bool_decide_unpack _). by vm_compute.
  - apply (bool_decide_unpack _). by vm_compute.
  - vm_compute. lia.
Defined.

(** A directive that has thrown at its [SEND] stays rejected when the
    client sends more and the socket closes. *)
Lemma settled_promise_is_final_witness :
  tasks (run decimalSize None
           (run decimalSize None start [Connect; Data 0 (lit "ACT[SEND,CLOSE]")])
           [Callback 0 None; Data 0 (lit "ACT[CLOSE]"); SockClosed 0]) !! 0%nat
  = Some (mkTask 0 [mkAction ACT_SEND None; mkAction ACT_CLOSE None]
            (Rejected ERR_INVALID_ARG_TYPE)).
Proof.
  apply (settled_promise_is_final decimalSize None); reflexivity.
Defined.

(** A first payload without closing marker, then a valid directive. *)
Lemma malformed_first_payload_spends_session_witness :
  0%nat ∉ t_sock <$> tasks (run decimalSize None start
                              ([Connect] ++ Data 0 (lit "GET / HTTP/1.1")
                               :: [Data 0 (lit "ACT[CLOSE]"); Callback 0 None])).
Proof.
  apply (malformed_first_payload_spends_session decimalSize [Connect]
           [Data 0 (lit "ACT[CLOSE]"); Callback 0 None] 0 (mkSocket false true)
           (lit "GET / HTTP/1.1")); reflexivity.
Defined.

(** [node script.js 8080 ACT[CLOSE] ACT[WAIT=5] 9090] *)
Lemma main_listens_with_last_arguments_witness :
  Some (lit "9090")
  = last (List.filter decimalNumeric
            [lit "8080"; lit "ACT[CLOSE]"; lit "ACT[WAIT=5]"; lit "9090"])
  /\ Some [mkAction ACT_WAIT (Some (lit "5"))]
     = last (List.filter (fun arg => negb (decimalNumeric arg))
               [lit "8080"; lit "ACT[CLOSE]"; lit "ACT[WAIT=5]"; lit "9090"])
       ≫= parseRequest.
Proof.
  apply (main_listens_with_last_arguments decimalNumeric
           [lit "8080"; lit "ACT[CLOSE]"; lit "ACT[WAIT=5]"; lit "9090"]).
  reflexivity.
Defined.

(** [node script.js 8080 CLOSE ACT[CLOSE]]: the action set lacks its
    markers. *)
Lemma main_reports_first_incorrect_argument_witness :
  main decimalNumeric ([lit "8080"] ++ lit "CLOSE" :: [lit "ACT[CLOSE]"])
  = ActionListIncorrect (lit "CLOSE").
Proof.
  apply (main_reports_first_incorrect_argument decimalNumeric).
  - repeat constructor.
  - reflexivity.
  - reflexivity.
  - by left.
Defined.

(** A second payload on a socket that has had its directive. *)
Lemma every_payload_is_logged_witness :
  exists es,
    trace (step decimalSize None
             (run decimalSize None start [Connect; Data 0 (lit "ACT[WAIT=9]")])
             (Data 0 (lit "ACT[CLOSE]")))
    = trace (run decimalSize None start [Connect; Data 0 (lit "ACT[WAIT=9]")])
      ++ Log [AStr (lit "Socket IN:"); AStr (lit "ACT[CLOSE]")] :: es.
Proof.
  apply (every_payload_is_logged decimalSize [Connect; Data 0 (lit "ACT[WAIT=9]")]
           0 (mkSocket true true)).
  reflexivity.
Defined.

(** The global action set [ACT[SEND=g,CLOSE]] on the first connection,
    with the client sending a directive of its own in between. *)
Lemma global_directive_once_per_session_witness :
  trace (run decimalSize
           (Some [mkAction ACT_SEND (Some (lit "g")); mkAction ACT_CLOSE None])
           (run decimalSize
              (Some [mkAction ACT_SEND (Some (lit "g")); mkAction ACT_CLOSE None])
              start [])
           (Connect :: [Data 0 (lit "ACT[SHUT]"); Callback 0 None;
                        Data 0 (lit "ACT[WAIT=5]"); Callback 0 None]))
  = [Log [AStr (lit "Socket connected")];
     Log [AStr (lit "Executing action SEND: g")];
     SockWrite 0 (CString (lit "g"));
     Log [AStr (lit "Executing action CLOSE")]; SockEnd 0].
Proof.
  pose proof (global_directive_once_per_session decimalSize
                [mkAction ACT_SEND (Some (lit "g")); mkAction ACT_CLOSE None] [])
    as (_ & _ & _ & _ & _ & H).
  destruct (H 2%nat [Data 0 (lit "ACT[SHUT]"); Callback 0 None;
                     Data 0 (lit "ACT[WAIT=5]"); Callback 0 None])
    as (_ & Ht & _).
  - repeat constructor.
  - simpl. lia.
  - reflexivity.
  - rewrite Ht. reflexivity.
Defined.
